(** * lockfree::AtomicWrapper — a copy-on-write slot over [std::shared_ptr]

    Shallow embedding of [src/AtomicWrapper.h].

    The wrapper owns one [std::shared_ptr<T> objectPtr].  Every operation goes
    through the atomic free functions of [<memory>] ([atomic_load],
    [atomic_store], [atomic_compare_exchange_weak]) and [std::make_shared].
    The embedding keeps what those functions act on:

    - the control blocks: a finite map from addresses to a stored value and
      its [use_count];
    - [objectPtr] itself: null or the address of a control block;
    - the state captured by the closures handed to [read] and [update];
    - the pending outcomes of the weak compare-exchange.

    Part one models the member functions run by one thread, in a state and
    exception monad.  Part two models [update] called by several threads as
    an interleaving of atomic steps over the same primitives.

    Every atomic library call is one indivisible step, together with the
    changes of [use_count] it makes; the memory orders the source passes
    ([memory_order_relaxed] in [store], [load], [read], [reset] and the
    comparisons, the default in [update]) are not told apart. *)

From stdpp Require Import base option list gmap fin_maps.
From Stdlib Require Import ZArith Lia.

Set Default Proof Using "Type".

(** ** Shared pointers and control blocks *)

Abbreviation addr := positive (only parsing).

(** [std::shared_ptr<T>]: [None] is [nullptr], [Some a] shares ownership of
    the control block at [a]. *)
Abbreviation shared_ptr := (option positive) (only parsing).

Record block (T : Type) := Block { stored : T; use_count : positive }.
Arguments Block {T} _ _.
Arguments stored {T} _.
Arguments use_count {T} _.

(** [std::make_shared] either throws [std::bad_alloc] ([None]) or returns an
    address that is not in use.  The choice may depend on the addresses that
    are in use and is otherwise arbitrary. *)
Record Allocator := {
  pick : gset addr → option addr;
  pick_unused : ∀ used a, pick used = Some a → a ∉ used
}.

Section Blocks.
Context {T : Type}.

(** One more owner of a block. *)
Definition share (b : block T) : block T :=
  Block (stored b) (Pos.succ (use_count b)).

(** One owner less; the last owner frees the block. *)
Definition unshare (b : block T) : option (block T) :=
  if decide (use_count b = 1%positive) then None
  else Some (Block (stored b) (Pos.pred (use_count b))).

(** Copy construction of a [shared_ptr]. *)
Definition acquire (p : shared_ptr) (h : gmap addr (block T)) : gmap addr (block T) :=
  match p with
  | None => h
  | Some a => alter share a h
  end.

(** Destruction of a [shared_ptr]. *)
Definition release (p : shared_ptr) (h : gmap addr (block T)) : gmap addr (block T) :=
  match p with
  | None => h
  | Some a => partial_alter (λ ob, ob ≫= unshare) a h
  end.

(** [*p] for a non-null [p] whose block is alive. *)
Definition pointee (p : shared_ptr) (h : gmap addr (block T)) : option T :=
  a ← p; stored <$> h !! a.

(** [p == nullptr ? T() : *p], as a value. *)
Definition pointee_or (d : T) (p : shared_ptr) (h : gmap addr (block T)) : T :=
  default d (pointee p h).

(** The [use_count] recorded for the block at [a], [0] when there is none. *)
Definition owners (h : gmap addr (block T)) (a : addr) : nat :=
  match h !! a with
  | Some b => Pos.to_nat (use_count b)
  | None => 0
  end.

(** A pointer is alive when it is null or its block exists. *)
Definition alive (p : shared_ptr) (h : gmap addr (block T)) : Prop :=
  match p with
  | None => True
  | Some a => is_Some (h !! a)
  end.
End Blocks.

Global Arguments acquire {T} _ _ : simpl never.
Global Arguments release {T} _ _ : simpl never.
Global Arguments pointee {T} _ _ : simpl never.

(** Number of times [a] is held by the pointer [p]. *)
Definition holds (a : addr) (p : shared_ptr) : nat :=
  if decide (p = Some a) then 1 else 0.

(** ** The memory shared by all callers *)

Record Mem (T : Type) := mkMem {
  heap : gmap addr (block T);
  objectPtr : shared_ptr
}.
Arguments mkMem {T} _ _.
Arguments heap {T} _.
Arguments objectPtr {T} _.

Section Atomics.
Context {T : Type}.

(** [std::atomic_load(&objectPtr)]: a copy of the pointer, taken atomically
    with the increment of its [use_count]. *)
Definition atomic_load (m : Mem T) : shared_ptr * Mem T :=
  (objectPtr m, mkMem (acquire (objectPtr m) (heap m)) (objectPtr m)).

(** [std::atomic_store(&objectPtr, r)]: [r] is moved into the slot, the
    pointer it replaces is destroyed. *)
Definition atomic_store (r : shared_ptr) (m : Mem T) : Mem T :=
  mkMem (release (objectPtr m) (heap m)) r.

(** [std::atomic_compare_exchange_weak(&objectPtr, &v, w)].

    [w] is passed by value.  The weak form may fail spuriously, that is,
    leave the slot alone and return [false] although the slot is equivalent
    to [v]; whether it does is the argument [spurious].  When the slot is
    equivalent to [v] and the operation does not fail spuriously, [w]
    becomes the slot's pointer
    (one more owner for [w], one less for the replaced pointer) and the
    result is [true].  Otherwise [v] is overwritten with a copy of the
    slot's pointer (one more owner for it, one less for the old [v]) and the
    result is [false].  The second component is the new value of [v]. *)
Definition atomic_compare_exchange_weak
    (spurious : bool) (v w : shared_ptr) (m : Mem T) : bool * shared_ptr * Mem T :=
  if negb spurious && bool_decide (objectPtr m = v) then
    (true, v, mkMem (release (objectPtr m) (acquire w (heap m))) w)
  else
    (false, objectPtr m,
     mkMem (release v (acquire (objectPtr m) (heap m))) (objectPtr m)).
End Atomics.

(** ** Part one: the member functions, run by one thread *)

Inductive exn := bad_alloc.

Section Wrapper.
(** [T] is the wrapped type, [T_default] is [T()] (the [static_assert]
    demands it), copying a [T] yields an equal value.  [E] is whatever the
    caller's closures capture and may change when they run. *)
Context {T E : Type}.
Variable T_default : T.
Variable alloc : Allocator.

Record World := mkWorld {
  mem : Mem T;
  ext : E;
  (** outcomes of the coming weak compare-exchanges: [true] is a spurious
      failure; once the list is used up none fails spuriously *)
  weak_fails : list bool
}.

Definition slot (w : World) : shared_ptr := objectPtr (mem w).
Definition blocks (w : World) : gmap addr (block T) := heap (mem w).

Definition with_mem (m : Mem T) (w : World) : World :=
  mkWorld m (ext w) (weak_fails w).
Definition with_heap (h : gmap addr (block T)) (w : World) : World :=
  with_mem (mkMem h (slot w)) w.

(** No dangling slot: [objectPtr] is null or its block exists. *)
Definition wf (w : World) : Prop := alive (slot w) (blocks w).

(** The value a reader sees: the stored value, or [T()] for an empty slot. *)
Definition current (w : World) : T := pointee_or T_default (slot w) (blocks w).

(** The two states of the slot: empty, or holding a snapshot, that is a
    non-null pointer to a block that exists. *)
Definition empty (w : World) : Prop := slot w = None.
Definition holding (w : World) : Prop :=
  ∃ a b, slot w = Some a ∧ blocks w !! a = Some b.

(** The memory once a fresh snapshot of [v], put at [a], has replaced the
    slot's pointer and the replaced pointer has been destroyed. *)
Definition publish (a : addr) (v : T) (m : Mem T) : Mem T :=
  mkMem (release (objectPtr m) (<[a := Block v 1]> (heap m))) (Some a).

(** The world inside the loop of an [update] entered in [w0] that nobody
    interferes with: the slot is as it was, [currentObjectPtr] is a second
    owner of the slot's block, and [updateObjectPtr] is null or the sole
    owner of the snapshot of the attempt before. *)
Definition retrying (w0 : World) (updateObjectPtr : shared_ptr) (w : World) : Prop :=
  slot w = slot w0 ∧
  match updateObjectPtr with
  | None => blocks w = acquire (slot w0) (blocks w0)
  | Some ap =>
      (ap ∉ dom (blocks w0)) ∧
      (∃ xp, blocks w = <[ap := Block xp 1]> (acquire (slot w0) (blocks w0)))
  end.

(** How a call ends. [Undefined] is undefined behaviour (dereferencing a
    pointer whose block is gone), [Spinning] is a retry loop that has not
    finished within the given number of iterations. *)
Inductive outcome (A : Type) :=
  | Returns (a : A) (w : World)
  | Throws (e : exn) (w : World)
  | Undefined
  | Spinning.
Arguments Returns {A} _ _.
Arguments Throws {A} _ _.
Arguments Undefined {A}.
Arguments Spinning {A}.

Definition M (A : Type) := World → outcome A.

Definition ret {A} (a : A) : M A := λ w, Returns a w.
Definition bind {A B} (c : M A) (k : A → M B) : M B := λ w,
  match c w with
  | Returns a w' => k a w'
  | Throws e w' => Throws e w'
  | Undefined => Undefined
  | Spinning => Spinning
  end.

Notation "x <- c ;; k" := (bind c (λ x, k))
  (at level 100, c at next level, right associativity).
Notation "c ;;; k" := (bind c (λ _, k))
  (at level 100, right associativity).

(** Runs [c]; if it throws, runs the destructors [unwind] and rethrows. *)
Definition cleanup {A} (c : M A) (unwind : M unit) : M A := λ w,
  match c w with
  | Throws e w' =>
      match unwind w' with
      | Returns _ w'' => Throws e w''
      | Throws e' w'' => Throws e' w''
      | Undefined => Undefined
      | Spinning => Spinning
      end
  | r => r
  end.

(** *** Primitives *)

Definition make_shared (v : T) : M shared_ptr := λ w,
  match pick alloc (dom (blocks w)) with
  | None => Throws bad_alloc w
  | Some a => Returns (Some a) (with_heap (<[a := Block v 1]> (blocks w)) w)
  end.

Definition load_ptr : M shared_ptr := λ w,
  let '(p, m) := atomic_load (mem w) in Returns p (with_mem m w).

Definition store_ptr (r : shared_ptr) : M unit := λ w,
  Returns tt (with_mem (atomic_store r (mem w)) w).

Definition cas_ptr (v w' : shared_ptr) : M (bool * shared_ptr) := λ w,
  let spurious := hd false (weak_fails w) in
  let '(ok, v', m) := atomic_compare_exchange_weak spurious v w' (mem w) in
  Returns (ok, v') (mkWorld m (ext w) (tail (weak_fails w))).

Definition destroy (p : shared_ptr) : M unit := λ w,
  Returns tt (with_heap (release p (blocks w)) w).

Definition deref (p : shared_ptr) : M T := λ w,
  match pointee p (blocks w) with
  | Some v => Returns v w
  | None => Undefined
  end.

(** [p == nullptr ? T() : *p] *)
Definition value_or_default (p : shared_ptr) : M T :=
  match p with
  | None => ret T_default
  | Some _ => deref p
  end.

(** Calling a closure of the caller on an object [x] it receives by
    reference: it may change [x], change what it captured, and return a
    result. *)
Definition call {U} (f : T → E → T * U * E) (x : T) : M (T * U) := λ w,
  let '(x', u, e') := f x (ext w) in
  Returns (x', u) (mkWorld (mem w) e' (weak_fails w)).

(** What the closure [f] yields the [k+1]-th time it is called on [x], when
    what it captured starts as [e]. *)
Fixpoint reinvoke {U} (f : T → E → T * U * E) (x : T) (k : nat) (e : E) : T * U * E :=
  match k with
  | O => f x e
  | S k' => reinvoke f x k' (snd (f x e))
  end.

(** The closure [f], made to record every object it is called on. *)
Definition logged {U} (f : T → E → T * U * E) : T → list T * E → T * U * (list T * E) :=
  λ x s, let r := f x (snd s) in (fst (fst r), snd (fst r), (fst s ++ [x], snd r)).

(** The closure of the [void] form seen as one that returns [tt]. *)
Definition returning_unit (g : T → E → T * E) : T → E → T * unit * E :=
  λ x e, (fst (g x e), tt, snd (g x e)).

(** *** Member functions *)

(** [void store(const T&)] *)
Definition store (updatedObject : T) : M unit :=
  p <- make_shared updatedObject ;;
  store_ptr p.

(** [T load() const] *)
Definition load : M T :=
  currentObjectPtr <- load_ptr ;;
  v <- value_or_default currentObjectPtr ;;
  destroy currentObjectPtr ;;;
  ret v.

(** [bool load(T& outputObject) const]; the second component is
    [outputObject] after the call. *)
Definition load_into (outputObject : T) : M (bool * T) :=
  currentObjectPtr <- load_ptr ;;
  match currentObjectPtr with
  | None => ret (false, outputObject)
  | Some _ =>
      v <- deref currentObjectPtr ;;
      destroy currentObjectPtr ;;;
      ret (true, v)
  end.

(** [read(readFunction)]: the conditional expression is a prvalue, so the
    function receives a temporary; what it does to it is dropped. *)
Definition read {U} (readFunction : T → E → T * U * E) : M U :=
  currentObjectPtr <- load_ptr ;;
  tmp <- value_or_default currentObjectPtr ;;
  r <- call readFunction tmp ;;
  destroy currentObjectPtr ;;;
  ret (snd r).

(** The [do ... while] of [update].  [currentObjectPtr] and
    [updateObjectPtr] are the two locals that live across iterations;
    they are destroyed when the function returns or is unwound. *)
Fixpoint update_loop {U} (rounds : nat) (updateFunction : T → E → T * U * E)
    (currentObjectPtr updateObjectPtr : shared_ptr) : M U :=
  match rounds with
  | O => λ _, Spinning
  | S rounds' =>
      made <- cleanup
                (updateObject <- value_or_default currentObjectPtr ;;
                 r <- call updateFunction updateObject ;;
                 fresh <- make_shared (fst r) ;;
                 ret (fresh, snd r))
                (destroy updateObjectPtr ;;; destroy currentObjectPtr) ;;
      destroy updateObjectPtr ;;;
      swapped <- cas_ptr currentObjectPtr (fst made) ;;
      if fst swapped then
        destroy (fst made) ;;; destroy (snd swapped) ;;;
        ret (snd made)
      else
        update_loop rounds' updateFunction (snd swapped) (fst made)
  end.

(** [U update(std::function<U (T&)>)] *)
Definition update {U} (rounds : nat) (updateFunction : T → E → T * U * E) : M U :=
  currentObjectPtr <- load_ptr ;;
  update_loop rounds updateFunction currentObjectPtr None.

(** Calling a closure that returns nothing. *)
Definition call_void (f : T → E → T * E) (x : T) : M T := λ w,
  let '(x', e') := f x (ext w) in
  Returns x' (mkWorld (mem w) e' (weak_fails w)).

(** The [do ... while] of the [void] form. *)
Fixpoint update_void_loop (rounds : nat) (updateFunction : T → E → T * E)
    (currentObjectPtr updateObjectPtr : shared_ptr) : M unit :=
  match rounds with
  | O => λ _, Spinning
  | S rounds' =>
      made <- cleanup
                (updateObject <- value_or_default currentObjectPtr ;;
                 updateObject' <- call_void updateFunction updateObject ;;
                 make_shared updateObject')
                (destroy updateObjectPtr ;;; destroy currentObjectPtr) ;;
      destroy updateObjectPtr ;;;
      swapped <- cas_ptr currentObjectPtr made ;;
      if fst swapped then
        destroy made ;;; destroy (snd swapped) ;;;
        ret tt
      else
        update_void_loop rounds' updateFunction (snd swapped) made
  end.

(** [void update(std::function<void (T&)>)] *)
Definition update_void (rounds : nat) (updateFunction : T → E → T * E) : M unit :=
  currentObjectPtr <- load_ptr ;;
  update_void_loop rounds updateFunction currentObjectPtr None.

(** The reading of "[update] calls the closure exactly once": the call
    returns what one call of [f] on a copy of the current value returns,
    what [f] captured is as that one call leaves it, and readers see the
    object as that call left it. *)
Definition calls_once {U} (rounds : nat) (f : T → E → T * U * E) (w : World) : Prop :=
  let r := f (current w) (ext w) in
  ∃ w', update rounds f w = Returns (snd (fst r)) w' ∧
        ext w' = snd r ∧
        current w' = fst (fst r).

(** [void init()] *)
Definition init : M unit := store T_default.

(** [void reset()] *)
Definition reset : M unit := store_ptr None.

(** [AtomicWrapper& operator=(const T&)]; returning [*this] is returning
    nothing new. *)
Definition assign (t : T) : M unit := store t ;;; ret tt.

(** [operator T() const] *)
Definition to_T : M T := load.

(** [AtomicWrapper& operator=(std::nullptr_t)] *)
Definition assign_null : M unit := reset ;;; ret tt.

(** [bool operator==(std::nullptr_t) const] *)
Definition is_null : M bool :=
  p <- load_ptr ;;
  destroy p ;;;
  ret (bool_decide (p = None)).

(** [bool operator!=(std::nullptr_t) const] *)
Definition is_not_null : M bool :=
  b <- is_null ;; ret (negb b).

(** *** Constructors *)

(** The object before a constructor body runs: the default member
    initializer makes [objectPtr] null. *)
Definition unconstructed (e : E) (fails : list bool) : World :=
  mkWorld (mkMem ∅ None) e fails.

(** [AtomicWrapper() = default] *)
Definition construct_default (e : E) (fails : list bool) : outcome unit :=
  Returns tt (unconstructed e fails).

(** [objectPtr = std::make_shared<T>(...)] in a constructor body: plain
    move assignment. *)
Definition assign_member (p : shared_ptr) : M unit := λ w,
  Returns tt (with_mem (mkMem (release (slot w) (blocks w)) p) w).

(** [AtomicWrapper(T initializeObject)] *)
Definition construct_from (initializeObject : T) (e : E) (fails : list bool) : outcome unit :=
  (p <- make_shared initializeObject ;; assign_member p) (unconstructed e fails).

(** [template <typename... Args> AtomicWrapper(Args&&... args)], where
    [build] is the constructor of [T] the arguments select. *)
Definition construct_args {Args} (build : Args → T) (args : Args)
    (e : E) (fails : list bool) : outcome unit :=
  (p <- make_shared (build args) ;; assign_member p) (unconstructed e fails).

End Wrapper.

Arguments Returns {T E A} _ _.
Arguments Throws {T E A} _ _.
Arguments Undefined {T E A}.
Arguments Spinning {T E A}.
Arguments mkWorld {T E} _ _ _.

(** ** Part two: [update] called by several threads

    Each caller of [void update(std::function<void (T&)>)] is a frame with a
    program point and the locals of the function.  One step is one of the
    atomic library calls of the function body (or a piece of thread-local
    work); the steps of the callers interleave in any order. *)

Inductive point :=
  | AtLoad      (* before [atomic_load] *)
  | AtCall      (* at the top of the loop body *)
  | AtMake      (* before [make_shared] *)
  | AtSwap      (* before [atomic_compare_exchange_weak] *)
  | AtReturn    (* the exchange succeeded, locals still alive *)
  | Returned
  | Threw.      (* left by [std::bad_alloc] *)

Global Instance point_eq_dec : EqDecision point.
Proof. solve_decision. Defined.

Record frame (T : Type) := Frame {
  at_point : point;
  currentObjectPtr : shared_ptr;
  updateObjectPtr : shared_ptr;
  updateObject : T
}.
Arguments Frame {T} _ _ _ _.
Arguments at_point {T} _.
Arguments currentObjectPtr {T} _.
Arguments updateObjectPtr {T} _.
Arguments updateObject {T} _.

Record conf (T : Type) := Conf {
  shared : Mem T;
  pool : list (frame T)
}.
Arguments Conf {T} _ _.
Arguments shared {T} _.
Arguments pool {T} _.

(** What the scheduler, the allocator and the hardware decide for one step:
    which caller moves, whether a weak compare-exchange made now fails
    spuriously, and where a [make_shared] made now puts its block ([None]:
    it throws). *)
Record decision := Decide {
  who : nat;
  spuriously : bool;
  place : option addr
}.

Section Interleaving.
Context {T : Type}.
Variable T_default : T.
(** The closure: it captures nothing and changes the object it is given. *)
Variable updateFunction : T → T.

(** A call that has just been entered. *)
Definition entered : frame T := Frame AtLoad None None T_default.

(** One step of the caller whose frame is [fr]; [None] when the caller has
    no step to make: it has left the function, the address it is given for
    a new block is in use, or it would dereference a pointer whose block is
    gone. *)
Definition frame_step (d : decision) (fr : frame T) (m : Mem T) : option (frame T * Mem T) :=
  match at_point fr with
  | AtLoad =>
      let '(p, m') := atomic_load m in
      Some (Frame AtCall p None (updateObject fr), m')
  | AtCall =>
      match currentObjectPtr fr with
      | None =>
          Some (Frame AtMake None (updateObjectPtr fr) (updateFunction T_default), m)
      | Some _ =>
          v ← pointee (currentObjectPtr fr) (heap m);
          Some (Frame AtMake (currentObjectPtr fr) (updateObjectPtr fr) (updateFunction v), m)
      end
  | AtMake =>
      match place d with
      | None =>
          Some (Frame Threw None None (updateObject fr),
                mkMem (release (currentObjectPtr fr)
                         (release (updateObjectPtr fr) (heap m))) (objectPtr m))
      | Some a =>
          if decide (a ∈ dom (heap m)) then None
          else
            Some (Frame AtSwap (currentObjectPtr fr) (Some a) (updateObject fr),
                  mkMem (release (updateObjectPtr fr)
                           (<[a := Block (updateObject fr) 1]> (heap m))) (objectPtr m))
      end
  | AtSwap =>
      let '(ok, v', m') :=
        atomic_compare_exchange_weak (spuriously d)
          (currentObjectPtr fr) (updateObjectPtr fr) m in
      Some (Frame (if ok then AtReturn else AtCall) v' (updateObjectPtr fr) (updateObject fr), m')
  | AtReturn =>
      Some (Frame Returned None None (updateObject fr),
            mkMem (release (currentObjectPtr fr)
                     (release (updateObjectPtr fr) (heap m))) (objectPtr m))
  | Returned | Threw => None
  end.

(** One step of the whole configuration. *)
Definition exec (d : decision) (c : conf T) : option (conf T) :=
  fr ← pool c !! who d;
  '(fr', m') ← frame_step d fr (shared c);
  Some (Conf m' (<[who d := fr']> (pool c))).

Fixpoint run (ds : list decision) (c : conf T) : option (conf T) :=
  match ds with
  | [] => Some c
  | d :: ds' => c' ← exec d c; run ds' c'
  end.

(** [K] callers enter [update] on the memory [m]. *)
Definition spawn (K : nat) (m : Mem T) : conf T := Conf m (replicate K entered).

(** Frames that have exchanged the slot's pointer. *)
Definition swapped (fr : frame T) : nat :=
  match at_point fr with
  | AtReturn | Returned => 1
  | _ => 0
  end.

Definition frame_holds (a : addr) (fr : frame T) : nat :=
  holds a (currentObjectPtr fr) + holds a (updateObjectPtr fr).

(** Owners of the block at [a]: the slot and the locals of every frame. *)
Definition holders (a : addr) (c : conf T) : nat :=
  holds a (objectPtr (shared c)) + sum_list (frame_holds a <$> pool c).

(** The value the slot shows to a reader. *)
Definition visible (m : Mem T) : T := pointee_or T_default (objectPtr m) (heap m).

(** Every [use_count] is the number of pointers that own the block, and
    there is no block without an owner. *)
Definition counted (c : conf T) : Prop :=
  ∀ a, owners (heap (shared c)) a = holders a c.

(** What the locals of a frame are known to be at each program point. *)
Definition frame_sound (h : gmap addr (block T)) (fr : frame T) : Prop :=
  match at_point fr with
  | AtLoad | Returned | Threw =>
      currentObjectPtr fr = None ∧ updateObjectPtr fr = None
  | AtCall | AtReturn => True
  | AtMake =>
      updateObject fr = updateFunction (pointee_or T_default (currentObjectPtr fr) h)
  | AtSwap =>
      pointee (updateObjectPtr fr) h
      = Some (updateFunction (pointee_or T_default (currentObjectPtr fr) h))
  end.

(** The invariant of the interleaving started from a slot showing [v0]:
    the slot shows [v0] with the closure applied once per exchange made. *)
Definition invariant (v0 : T) (c : conf T) : Prop :=
  counted c ∧
  (∀ i fr, pool c !! i = Some fr → frame_sound (heap (shared c)) fr) ∧
  visible (shared c) = Nat.iter (sum_list (swapped <$> pool c)) updateFunction v0.

(** A memory at rest: the slot's block, if any, has the slot as its only
    owner, and there is no other block. *)
Definition at_rest (m : Mem T) : Prop :=
  ∀ a, owners (heap m) a = holds a (objectPtr m).
End Interleaving.

(** The five steps of a call that nobody disturbs, the new block at [a]. *)
Definition alone (a : addr) : list decision :=
  [Decide 0 false None; Decide 0 false None; Decide 0 false (Some a);
   Decide 0 false None; Decide 0 false None].

(** The same decision for the caller one place further in the pool. *)
Definition later (d : decision) : decision :=
  Decide (S (who d)) (spuriously d) (place d).

(** [K] callers one after the other, each undisturbed; the new blocks go
    where [fresh] puts them. *)
Fixpoint one_by_one {T} (T_default : T) (f : T → T) (K : nat) (m : Mem T) : list decision :=
  match K with
  | O => []
  | S K' =>
      let a := fresh (dom (heap m)) in
      alone a ++
      (later <$> one_by_one T_default f K'
                   (mkMem (release (objectPtr m)
                             (<[a := Block (f (pointee_or T_default (objectPtr m) (heap m))) 1]>
                                (heap m)))
                          (Some a)))
  end.

(** ** A wrapped type and an allocator to run the model on *)

Module Sample.
(** A value of several fields, the kind the wrapper is for. *)
Record Stats := mkStats { count : Z; total : Z }.

Definition Stats_default : Stats := mkStats 0 0.

(** An allocator with room for [capacity] blocks. *)
Definition bounded_pick (capacity : nat) (used : gset positive) : option positive :=
  if decide (size used < capacity)%nat then Some (fresh used) else None.

Lemma bounded_pick_unused capacity used a :
  bounded_pick capacity used = Some a → a ∉ used.
Proof. unfold bounded_pick. case_decide; [|done]. intros [= <-]. apply is_fresh. Defined.

Definition bounded (capacity : nat) : Allocator :=
  {| pick := bounded_pick capacity; pick_unused := bounded_pick_unused capacity |}.

(** An allocator that never fails. *)
Lemma unbounded_pick_unused (used : gset positive) a :
  Some (fresh used) = Some a → a ∉ used.
Proof. intros [= <-]. apply is_fresh. Defined.

Definition unbounded : Allocator :=
  {| pick := λ used, Some (fresh used); pick_unused := unbounded_pick_unused |}.

Open Scope Z_scope.

(** A closure for the value-returning [update]: adds [n] to [total],
    counts one more sample, returns the new total; it captures the number
    of times it has run. *)
Definition add_sample (n : Z) (s : Stats) (runs : nat) : Stats * Z * nat :=
  (mkStats (count s + 1) (total s + n), (total s + n)%Z, S runs).

(** A closure for the [void] form, capturing the same. *)
Definition count_up (s : Stats) (runs : nat) : Stats * nat :=
  (mkStats (count s + 1) (total s), S runs).

(** A closure handed to [read] that scribbles on its argument. *)
Definition peek_and_scribble (s : Stats) (runs : nat) : Stats * Z * nat :=
  (mkStats (-1) (-1), total s, S runs).

(** The increment of the [count] field, capturing nothing. *)
Definition increment (s : Stats) : Stats := mkStats (count s + 1) (total s).

(** A wrapper holding [s] in the block at address 1. *)
Definition holding_at_1 (s : Stats) : World (T:=Stats) (E:=nat) :=
  mkWorld (mkMem {[1%positive := Block s 1]} (Some 1%positive)) O [].
Close Scope Z_scope.

(** The same wrapper when the next weak exchange fails spuriously. *)
Definition holding_at_1_shaky (s : Stats) : World (T:=Stats) (E:=nat) :=
  mkWorld (mkMem {[1%positive := Block s 1]} (Some 1%positive)) O [true].

(** The memory of [holding_at_1]. *)
Definition mem_at_1 (s : Stats) : Mem Stats :=
  mkMem {[1%positive := Block s 1]} (Some 1%positive).

(** Turns a list of moves (who moves, does a weak exchange made now fail
    spuriously) into decisions by putting every new block at the address
    [fresh] picks. *)
Fixpoint plan (moves : list (nat * bool)) (c : conf Stats) : list decision :=
  match moves with
  | [] => []
  | (i, spurious) :: moves' =>
      let d := Decide i spurious (Some (fresh (dom (heap (shared c))))) in
      d :: match exec Stats_default increment d c with
           | Some c' => plan moves' c'
           | None => []
           end
  end.

(** Three callers race: all load the same pointer and build a snapshot;
    caller 0 exchanges first; callers 1 and 2 fail, one of them once more
    spuriously, and try again. *)
Definition race : list (nat * bool) :=
  [(0, false); (1, false); (2, false);      (* atomic_load *)
   (0, false); (1, false); (2, false);      (* copy and call *)
   (0, false); (1, false); (2, false);      (* make_shared *)
   (0, false); (1, false); (2, false);      (* exchange: 0 wins *)
   (0, false);                              (* 0 returns *)
   (1, false); (1, false); (1, true);       (* 1 again: spurious failure *)
   (2, false); (2, false); (2, false);      (* 2 again: wins *)
   (2, false);                              (* 2 returns *)
   (1, false); (1, false); (1, false);      (* 1 again: stale pointer *)
   (1, false); (1, false); (1, false);      (* 1 again: wins *)
   (1, false)].                             (* 1 returns *)

(** Every caller in turn, start to finish. *)
Definition in_turn (K : nat) : list (nat * bool) :=
  flat_map (λ i, replicate 5 (i, false)) (seq 0 K).
End Sample.

(** ** Further notions for the member functions *)

(** A world at rest: no call is in flight, so the slot is the only owner
    of its block and there is no other block. *)
Definition settled {T E} (w : World (T:=T) (E:=E)) : Prop := at_rest (mem w).

(** What the closure does to the object and what it returns do not depend
    on what it has captured. *)
Definition steady {T E U} (f : T → E → T * U * E) : Prop :=
  ∀ x e e', fst (f x e) = fst (f x e').

(** ** Further notions for the interleaving *)

(** The caller is no longer in [update]: it returned or it threw. *)
Definition left_the_call {T} (fr : frame T) : Prop :=
  at_point fr = Returned ∨ at_point fr = Threw.

(** The callers of the pool that returned. *)
Definition returned {T} (pl : list (frame T)) : nat :=
  length (filter (λ fr, at_point fr = Returned) pl).

(** The steps a caller has left when it runs alone, without spurious
    failure or allocation failure: with a stale [currentObjectPtr] its
    exchange fails once and the loop body runs again. *)
Definition steps_left {T} (m : Mem T) (fr : frame T) : nat :=
  let again := if decide (objectPtr m = currentObjectPtr fr) then 0 else 3 in
  match at_point fr with
  | AtLoad => 5
  | AtCall => 4 + again
  | AtMake => 3 + again
  | AtSwap => 2 + again
  | AtReturn => 1
  | Returned | Threw => 0
  end.

(** Caller [i] moves; no spurious failure, the new block where [fresh]
    puts it. *)
Definition solo_decision {T} (i : nat) (m : Mem T) : decision :=
  Decide i false (Some (fresh (dom (heap m)))).

(** [n] moves of caller [i] alone. *)
Fixpoint solo {T} (T_default : T) (f : T → T) (i n : nat) (c : conf T) : list decision :=
  match n with
  | O => []
  | S n' =>
      let d := solo_decision i (shared c) in
      d :: match exec T_default f d c with
           | Some c' => solo T_default f i n' c'
           | None => []
           end
  end.

(** ** Writers and readers together

    Callers of [store], [reset], [load] and [update] on the same wrapper,
    their atomic steps interleaved.  Each caller is a job: the member
    function it called, how far it has got, and its locals.  [load] stands
    for the three readers, which all begin with [atomic_load] and then
    copy or pass on the pointee. *)

Inductive request (T : Type) :=
  | Store (v : T)             (* [store(v)], [operator=(const T&)], [init()] *)
  | Reset                     (* [reset()], [operator=(nullptr)] *)
  | Load                      (* [load()] *)
  | Update (f : T → T).       (* [update(f)], [f] capturing nothing *)
Arguments Store {T} _.
Arguments Reset {T}.
Arguments Load {T}.
Arguments Update {T} _.

Inductive stage :=
  | Entering      (* nothing done yet *)
  | Copying       (* holds a copy of the slot's pointer, about to read through it *)
  | Making        (* [update]: about to [make_shared] *)
  | Publishing    (* about to [atomic_store] or to compare-exchange *)
  | Leaving       (* locals still to destroy *)
  | Left
  | Thrown.

Record job (T : Type) := Job {
  doing : request T;
  stage_of : stage;
  job_current : shared_ptr;   (* [currentObjectPtr] *)
  job_fresh : shared_ptr;     (* [updateObjectPtr], or the temporary of [store] *)
  job_object : T              (* [updateObject], or what [load] returns *)
}.
Arguments Job {T} _ _ _ _ _.
Arguments doing {T} _.
Arguments stage_of {T} _.
Arguments job_current {T} _.
Arguments job_fresh {T} _.
Arguments job_object {T} _.

Record crowd (T : Type) := Crowd {
  crowd_mem : Mem T;
  jobs : list (job T)
}.
Arguments Crowd {T} _ _.
Arguments crowd_mem {T} _.
Arguments jobs {T} _.

Section Together.
Context {T : Type}.
Variable T_default : T.

(** A call that has just been made. *)
Definition calling (k : request T) : job T := Job k Entering None None T_default.

(** One step of the job [j]; [None] when it has none to make. *)
Definition job_step (d : decision) (j : job T) (m : Mem T) : option (job T * Mem T) :=
  match doing j, stage_of j with
  | Store v, Entering =>
      (* [std::make_shared<T>(updatedObject)] *)
      match place d with
      | None => Some (Job (Store v) Thrown None None (job_object j), m)
      | Some a =>
          if decide (a ∈ dom (heap m)) then None
          else Some (Job (Store v) Publishing None (Some a) (job_object j),
                     mkMem (<[a := Block v 1]> (heap m)) (objectPtr m))
      end
  | Store v, Publishing =>
      (* [std::atomic_store_explicit(&objectPtr, ...)], the temporary moved in *)
      Some (Job (Store v) Left None None (job_object j), atomic_store (job_fresh j) m)
  | Reset, Entering =>
      Some (Job Reset Left None None (job_object j), atomic_store None m)
  | Load, Entering =>
      let '(p, m') := atomic_load m in
      Some (Job Load Copying p None (job_object j), m')
  | Load, Copying =>
      (* [return T()] or [return *currentObjectPtr] *)
      match job_current j with
      | None => Some (Job Load Leaving None None T_default, m)
      | Some _ =>
          v ← pointee (job_current j) (heap m);
          Some (Job Load Leaving (job_current j) None v, m)
      end
  | Load, Leaving =>
      Some (Job Load Left None None (job_object j),
            mkMem (release (job_current j) (heap m)) (objectPtr m))
  | Update f, Entering =>
      let '(p, m') := atomic_load m in
      Some (Job (Update f) Copying p None (job_object j), m')
  | Update f, Copying =>
      match job_current j with
      | None => Some (Job (Update f) Making None (job_fresh j) (f T_default), m)
      | Some _ =>
          v ← pointee (job_current j) (heap m);
          Some (Job (Update f) Making (job_current j) (job_fresh j) (f v), m)
      end
  | Update f, Making =>
      match place d with
      | None =>
          Some (Job (Update f) Thrown None None (job_object j),
                mkMem (release (job_current j) (release (job_fresh j) (heap m)))
                      (objectPtr m))
      | Some a =>
          if decide (a ∈ dom (heap m)) then None
          else Some (Job (Update f) Publishing (job_current j) (Some a) (job_object j),
                     mkMem (release (job_fresh j)
                              (<[a := Block (job_object j) 1]> (heap m)))
                           (objectPtr m))
      end
  | Update f, Publishing =>
      let '(ok, v', m') :=
        atomic_compare_exchange_weak (spuriously d) (job_current j) (job_fresh j) m in
      Some (Job (Update f) (if ok then Leaving else Copying) v' (job_fresh j)
                (job_object j), m')
  | Update f, Leaving =>
      Some (Job (Update f) Left None None (job_object j),
            mkMem (release (job_current j) (release (job_fresh j) (heap m)))
                  (objectPtr m))
  | _, _ => None
  end.

Definition crowd_exec (d : decision) (c : crowd T) : option (crowd T) :=
  j ← jobs c !! who d;
  '(j', m') ← job_step d j (crowd_mem c);
  Some (Crowd m' (<[who d := j']> (jobs c))).

Fixpoint crowd_run (ds : list decision) (c : crowd T) : option (crowd T) :=
  match ds with
  | [] => Some c
  | d :: ds' => c' ← crowd_exec d c; crowd_run ds' c'
  end.

(** The calls [ks] are made on the memory [m]. *)
Definition gather (ks : list (request T)) (m : Mem T) : crowd T :=
  Crowd m (calling <$> ks).

Definition job_holds (a : addr) (j : job T) : nat :=
  holds a (job_current j) + holds a (job_fresh j).

Definition crowd_holders (a : addr) (c : crowd T) : nat :=
  holds a (objectPtr (crowd_mem c)) + sum_list (job_holds a <$> jobs c).

(** Every [use_count] is the number of pointers that own the block. *)
Definition crowd_counted (c : crowd T) : Prop :=
  ∀ a, owners (heap (crowd_mem c)) a = crowd_holders a c.

(** The job is over. *)
Definition over (j : job T) : Prop :=
  stage_of j = Left ∨ stage_of j = Thrown.

(** The values a reader may come to see: the one the slot showed at the
    start, [T()], a value some caller stores, and what the closure of some
    caller of [update] makes of such a value. *)
Inductive produced (v0 : T) (ks : list (request T)) : T → Prop :=
  | produced_initially : produced v0 ks v0
  | produced_default : produced v0 ks T_default
  | produced_by_store v : Store v ∈ ks → produced v0 ks v
  | produced_by_update f x : Update f ∈ ks → produced v0 ks x → produced v0 ks (f x).

(** What the locals of a job are known to be at each stage. *)
Definition job_sound (v0 : T) (ks : list (request T)) (j : job T) : Prop :=
  doing j ∈ ks ∧
  match doing j, stage_of j with
  | _, Entering | _, Left | _, Thrown =>
      job_current j = None ∧ job_fresh j = None ∧
      (doing j = Load → stage_of j = Left → produced v0 ks (job_object j))
  | Store v, Publishing =>
      job_current j = None ∧ ∃ a, job_fresh j = Some a
  | Load, Copying => job_fresh j = None
  | Load, Leaving => job_fresh j = None ∧ produced v0 ks (job_object j)
  | Update f, Copying => True
  | Update f, Making => produced v0 ks (job_object j)
  | Update f, Publishing => ∃ a, job_fresh j = Some a
  | Update f, Leaving => True
  | _, _ => False
  end.

Definition crowd_invariant (v0 : T) (ks : list (request T)) (c : crowd T) : Prop :=
  crowd_counted c ∧
  (∀ i j, jobs c !! i = Some j → job_sound v0 ks j) ∧
  (∀ a b, heap (crowd_mem c) !! a = Some b → produced v0 ks (stored b)).
End Together.

(** ** Scenes to run the interleavings on *)

Module Scenes.
Definition start : Mem Sample.Stats := Sample.mem_at_1 (Sample.mkStats 0 7).

(** Three callers of [update] with the increment. *)
Definition three : conf Sample.Stats := spawn Sample.Stats_default 3 start.

Definition go (ds : list decision) (c : conf Sample.Stats) : conf Sample.Stats :=
  default c (run Sample.Stats_default Sample.increment ds c).

(** All three have loaded the pointer and called the closure. *)
Definition to_making : list decision := Sample.plan (take 6 Sample.race) three.
Definition all_making : conf Sample.Stats := Eval vm_compute in go to_making three.

(** Caller 1 has loaded the pointer. *)
Definition one_loads : list decision := [Decide 1 false None].
Definition one_loaded : conf Sample.Stats := Eval vm_compute in go one_loads three.
Definition zero_done : conf Sample.Stats := Eval vm_compute in go (alone 2) one_loaded.

(** Caller 0 returns, caller 1 is thrown out by [make_shared], caller 2
    returns. *)
Definition with_a_throw : list decision :=
  alone 2 ++
  [Decide 1 false None; Decide 1 false None; Decide 1 false None] ++
  (later <$> (later <$> alone 3)).
Definition after_a_throw : conf Sample.Stats := Eval vm_compute in go with_a_throw three.

(** A writer, a reader, an updater and a resetter. *)
Definition four : list (request Sample.Stats) :=
  [Store (Sample.mkStats 5 6); Load; Update Sample.increment; Reset].
Definition gathered : crowd Sample.Stats := gather Sample.Stats_default four start.

Definition crowd_go (ds : list decision) (c : crowd Sample.Stats) : crowd Sample.Stats :=
  default c (crowd_run Sample.Stats_default ds c).

Definition move (i : nat) (p : option positive) : decision := Decide i false p.

(** Everyone in turn, start to finish. *)
Definition everyone : list decision :=
  [move 0 (Some 2%positive); move 0 None;
   move 1 None; move 1 None; move 1 None;
   move 2 None; move 2 None; move 2 (Some 3%positive); move 2 None; move 2 None;
   move 3 None].
Definition everyone_done : crowd Sample.Stats := Eval vm_compute in crowd_go everyone gathered.

(** The reader loads the pointer, then the slot is replaced and emptied. *)
Definition meanwhile_writers : list decision :=
  [move 0 (Some 2%positive); move 0 None; move 3 None].
Definition reader_loaded : crowd Sample.Stats :=
  Eval vm_compute in crowd_go [move 1 None] gathered.
Definition writers_done : crowd Sample.Stats :=
  Eval vm_compute in crowd_go meanwhile_writers reader_loaded.
Definition reader_copied : crowd Sample.Stats :=
  Eval vm_compute in crowd_go [move 1 None] writers_done.

(** The writer allocates, then the slot is emptied and updated. *)
Definition meanwhile_others : list decision :=
  [move 3 None; move 2 None; move 2 None; move 2 (Some 3%positive); move 2 None].
Definition writer_made : crowd Sample.Stats :=
  Eval vm_compute in crowd_go [move 0 (Some 2%positive)] gathered.
Definition others_done : crowd Sample.Stats :=
  Eval vm_compute in crowd_go meanwhile_others writer_made.
Definition writer_stored : crowd Sample.Stats :=
  Eval vm_compute in crowd_go [move 0 None] others_done.
End Scenes.

(** * Facts *)

(** ** Control blocks *)

Section BlockFacts.
Context {T : Type}.
Implicit Types (h : gmap addr (block T)) (p : shared_ptr) (a k : addr).

Lemma lookup_acquire p h k :
  acquire p h !! k = if decide (p = Some k) then share <$> h !! k else h !! k.
Proof.
  destruct p as [a|]; unfold acquire; simpl.
  - rewrite lookup_alter.
    repeat case_decide; by simplify_eq.
  - done.
Qed.

Lemma lookup_release p h k :
  release p h !! k = if decide (p = Some k) then h !! k ≫= unshare else h !! k.
Proof.
  destruct p as [a|]; unfold release; simpl.
  - rewrite lookup_partial_alter.
    repeat case_decide; by simplify_eq.
  - done.
Qed.

Lemma acquire_null h : acquire None h = h.
Proof. done. Qed.

Lemma release_null h : release None h = h.
Proof. done. Qed.

Lemma lookup_acquire_eq a h : acquire (Some a) h !! a = share <$> h !! a.
Proof. rewrite lookup_acquire. by case_decide. Qed.

Lemma unshare_share (b : block T) : unshare (share b) = Some b.
Proof.
  destruct b as [v n]. unfold unshare, share; simpl.
  case_decide; [lia|]. by rewrite Pos.pred_succ.
Qed.

Lemma release_acquire p h : release p (acquire p h) = h.
Proof.
  apply map_eq; intros k. rewrite lookup_release, lookup_acquire.
  case_decide; [|done].
  destruct (h !! k) as [b|]; simpl; [apply unshare_share|done].
Qed.

Lemma dom_acquire p h : dom (acquire p h) = dom h.
Proof.
  apply set_eq; intros k. rewrite !elem_of_dom, lookup_acquire.
  case_decide; [|done]. by rewrite fmap_is_Some.
Qed.

Lemma pointee_lookup a h b : h !! a = Some b → pointee (Some a) h = Some (stored b).
Proof. unfold pointee; simpl. by intros ->. Qed.

Lemma pointee_acquire p q h : pointee q (acquire p h) = pointee q h.
Proof.
  destruct q as [k|]; [|done]. unfold pointee; simpl. rewrite lookup_acquire.
  case_decide; [|done]. by destruct (h !! k).
Qed.

Lemma alive_pointee p h : alive p h → p ≠ None → is_Some (pointee p h).
Proof.
  destruct p as [a|]; [|done]. unfold pointee; simpl. intros [b ->] _. by eexists.
Qed.

Lemma alive_acquire p q h : alive q h → alive q (acquire p h).
Proof.
  destruct q as [k|]; [|done]. simpl. rewrite lookup_acquire.
  case_decide; [|done]. by rewrite fmap_is_Some.
Qed.
End BlockFacts.

(** ** The member functions run by one thread *)

(** Unfolds one call down to the operations on the control blocks. *)
Ltac step_through :=
  repeat (progress
    (unfold wf, current, empty, bind, ret, cleanup,
            load_ptr, store_ptr, cas_ptr, destroy, deref, value_or_default, call,
            make_shared, assign_member, unconstructed, publish, retrying,
            atomic_load, atomic_store, atomic_compare_exchange_weak,
            with_heap, with_mem, slot, blocks, pointee_or in *;
     simpl in *)).

(** Compares two heaps block by block. *)
Ltac heap_lookups :=
  repeat (first [ rewrite lookup_release | rewrite lookup_acquire
                | rewrite lookup_insert | rewrite lookup_empty | case_decide ];
          simplify_eq);
  repeat match goal with
    | H : ?h !! ?k = _ |- context [?h !! ?k] => rewrite H
    | |- context [?h !! ?k] => destruct (h !! k) eqn:?
    end;
  simpl; rewrite ?unshare_share; simpl; try done.

Ltac heap_eq := apply map_eq; intros ?; heap_lookups.

Section WrapperFacts.
Context {T E : Type}.
Variable T_default : T.
Variable alloc : Allocator.
Implicit Types (w : World (T:=T) (E:=E)) (v : T) (p : shared_ptr).

Lemma load_returns w :
  wf w → load T_default w = Returns (current T_default w) w.
Proof.
  destruct w as [[h p] e fl]. unfold load. step_through.
  destruct p as [a|]; simpl.
  - intros [b Hb]. rewrite pointee_acquire, (pointee_lookup _ _ _ Hb); simpl.
    by rewrite release_acquire.
  - done.
Qed.

Lemma load_into_returns w out :
  wf w →
  load_into out w =
    Returns (if slot w is Some _ then (true, current T_default w) else (false, out)) w.
Proof.
  destruct w as [[h p] e fl]. unfold load_into. step_through.
  destruct p as [a|]; simpl.
  - intros [b Hb]. step_through.
    rewrite pointee_acquire, (pointee_lookup _ _ _ Hb); simpl.
    by rewrite release_acquire.
  - done.
Qed.

Lemma read_returns {U} (f : T → E → T * U * E) w :
  wf w →
  read T_default f w =
    Returns (snd (fst (f (current T_default w) (ext w))))
            (mkWorld (mem w) (snd (f (current T_default w) (ext w))) (weak_fails w)).
Proof.
  destruct w as [[h p] e fl]. unfold read. step_through.
  destruct p as [a|]; simpl.
  - intros [b Hb]. step_through.
    rewrite pointee_acquire, (pointee_lookup _ _ _ Hb); simpl.
    destruct (f (stored b) e) as [[x u] e']; simpl.
    by rewrite release_acquire.
  - intros _. by destruct (f T_default e) as [[x u] e'].
Qed.

Lemma is_null_returns w :
  is_null w = Returns (bool_decide (slot w = None)) w.
Proof.
  destruct w as [[h p] e fl]. unfold is_null. step_through.
  by rewrite release_acquire.
Qed.

Lemma store_outcome v w :
  store alloc v w =
    match pick alloc (dom (blocks w)) with
    | None => Throws bad_alloc w
    | Some a => Returns tt (mkWorld (publish a v (mem w)) (ext w) (weak_fails w))
    end.
Proof.
  destruct w as [[h p] e fl]. unfold store. step_through.
  by destruct (pick alloc (dom h)).
Qed.

Lemma reset_returns w :
  reset w = Returns tt (mkWorld (mkMem (release (slot w) (blocks w)) None) (ext w) (weak_fails w)).
Proof. by destruct w as [[h p] e fl]. Qed.

(** What [publish] leaves behind. *)
Lemma publish_pointee a v (m : Mem T) :
  alive (objectPtr m) (heap m) → a ∉ dom (heap m) →
  pointee (Some a) (heap (publish a v m)) = Some v.
Proof.
  destruct m as [h p]; simpl. intros Hp Ha.
  unfold pointee; simpl. rewrite lookup_release, lookup_insert_eq.
  case_decide as Hpa; [|done]. subst p. simpl in Hp.
  by apply elem_of_dom in Hp.
Qed.

Lemma load_ptr_outcome w :
  load_ptr w =
    Returns (slot w)
      (mkWorld (mkMem (acquire (slot w) (blocks w)) (slot w)) (ext w) (weak_fails w)).
Proof. by destruct w as [[h p] e fl]. Qed.

Lemma update_enters {U} rounds (f : T → E → T * U * E) w :
  update T_default alloc rounds f w =
    update_loop T_default alloc rounds f (slot w) None
      (mkWorld (mkMem (acquire (slot w) (blocks w)) (slot w)) (ext w) (weak_fails w)).
Proof. unfold update, bind. by rewrite load_ptr_outcome. Qed.

(** One iteration of the loop of [update], spelled out. *)
Lemma update_loop_round {U} rounds (f : T → E → T * U * E) cur upd w :
  (cur = None ∨ is_Some (pointee cur (blocks w))) →
  update_loop T_default alloc (S rounds) f cur upd w =
    let r := f (pointee_or T_default cur (blocks w)) (ext w) in
    match pick alloc (dom (blocks w)) with
    | None =>
        Throws bad_alloc
          (mkWorld (mkMem (release cur (release upd (blocks w))) (slot w))
                   (snd r) (weak_fails w))
    | Some a =>
        let h1 := release upd (<[a := Block (fst (fst r)) 1]> (blocks w)) in
        if negb (hd false (weak_fails w)) && bool_decide (slot w = cur) then
          Returns (snd (fst r))
            (mkWorld
               (mkMem (release cur (release (Some a)
                         (release (slot w) (acquire (Some a) h1)))) (Some a))
               (snd r) (tail (weak_fails w)))
        else
          update_loop T_default alloc rounds f (slot w) (Some a)
            (mkWorld (mkMem (release cur (acquire (slot w) h1)) (slot w))
                     (snd r) (tail (weak_fails w)))
    end.
Proof.
  destruct w as [[h p] e fl]. intros Hcur. simpl.
  assert (value_or_default T_default cur (mkWorld (mkMem h p) e fl)
          = Returns (pointee_or T_default cur h) (mkWorld (mkMem h p) e fl)) as Hv.
  { destruct Hcur as [->|[v Hv]]; [done|].
    destruct cur; [|done]. step_through. by rewrite Hv. }
  unfold bind at 1. unfold cleanup, bind at 1. unfold bind at 1. rewrite Hv.
  step_through.
  destruct (f (default T_default (pointee cur h)) e) as [[x u] e']; simpl.
  destruct (pick alloc (dom h)) as [a|]; simpl; [|done].
  destruct (negb (hd false fl) && bool_decide (p = cur)); simpl; done.
Qed.

Lemma update_once {U} rounds (f : T → E → T * U * E) w a :
  wf w → hd false (weak_fails w) = false →
  pick alloc (dom (blocks w)) = Some a →
  update T_default alloc (S rounds) f w =
    Returns (snd (fst (f (current T_default w) (ext w))))
            (mkWorld (publish a (fst (fst (f (current T_default w) (ext w)))) (mem w))
                     (snd (f (current T_default w) (ext w)))
                     (tail (weak_fails w))).
Proof.
  destruct w as [[h p] e fl]. intros Hp Hfl Ha.
  rewrite update_enters, update_loop_round; last first.
  { destruct p as [o|]; [right|by left]. step_through.
    rewrite pointee_acquire. destruct Hp as [b Hb].
    rewrite (pointee_lookup _ _ _ Hb). by eexists. }
  step_through. rewrite dom_acquire, Ha, Hfl, pointee_acquire; simpl.
  rewrite bool_decide_eq_true_2 by done.
  assert (a ∉ dom h) as Hfresh by (by eapply pick_unused).
  apply not_elem_of_dom in Hfresh.
  do 3 f_equal. rewrite release_null.
  destruct p as [o|]; [destruct Hp as [b Hb]|]; heap_eq.
Qed.

(** The [void] form is the other form with a closure that returns [tt]. *)
Lemma update_void_loop_unit rounds (g : T → E → T * E) :
  ∀ cur upd w,
    update_void_loop T_default alloc rounds g cur upd w =
    update_loop T_default alloc rounds (returning_unit g) cur upd w.
Proof.
  induction rounds as [|rounds IH]; intros cur upd w; [done|].
  simpl. unfold bind, cleanup, ret.
  destruct (value_or_default T_default cur w) as [x w1| | |]; try done.
  unfold call, call_void, returning_unit.
  destruct (g x (ext w1)) as [x' e']; simpl.
  destruct (make_shared alloc x' _) as [fresh w2| | |]; try done.
  simpl. destruct (cas_ptr cur fresh _) as [[ok v'] w4| | |]; try done.
  simpl. destruct ok; [done|]. apply IH.
Qed.

Lemma update_void_unit rounds (g : T → E → T * E) w :
  update_void T_default alloc rounds g w =
  update T_default alloc rounds (returning_unit g) w.
Proof.
  unfold update_void, update, bind.
  destruct (load_ptr w); try done. apply update_void_loop_unit.
Qed.

Lemma retrying_pointee w0 upd w :
  wf w0 → retrying w0 upd w →
  (slot w0 = None ∨ is_Some (pointee (slot w0) (blocks w))) ∧
  pointee_or T_default (slot w0) (blocks w) = current T_default w0.
Proof.
  destruct w0 as [[h0 p0] e0 fl0], w as [[h p] e fl].
  step_through. intros Hp [-> Hh].
  destruct p0 as [o|]; [|by split; [left|]]. destruct Hp as [b Hb].
  assert (pointee (Some o) h = Some (stored b)) as ->; [|split; [right|]; by rewrite ?(pointee_lookup _ _ _ Hb)].
  unfold pointee; simpl.
  destruct upd as [ap|].
  - destruct Hh as [Hap [xp ->]]. apply not_elem_of_dom in Hap.
    heap_lookups.
  - subst h. heap_lookups.
Qed.

(** One iteration of the loop of an undisturbed [update]: the allocation
    throws and memory is as at entry, or the exchange fails spuriously and
    the loop goes on, or the new snapshot is published. *)
Lemma retrying_round {U} rounds (f : T → E → T * U * E) w0 upd w :
  wf w0 → retrying w0 upd w →
  let r := f (current T_default w0) (ext w) in
  match pick alloc (dom (blocks w)) with
  | None =>
      update_loop T_default alloc (S rounds) f (slot w0) upd w =
        Throws bad_alloc (mkWorld (mem w0) (snd r) (weak_fails w))
  | Some a =>
      (a ∉ dom (blocks w0)) ∧
      let w1 := mkWorld (mkMem (<[a := Block (fst (fst r)) 1]>
                                  (acquire (slot w0) (blocks w0))) (slot w0))
                        (snd r) (tail (weak_fails w)) in
      retrying w0 (Some a) w1 ∧
      update_loop T_default alloc (S rounds) f (slot w0) upd w =
        if hd false (weak_fails w)
        then update_loop T_default alloc rounds f (slot w0) (Some a) w1
        else Returns (snd (fst r))
               (mkWorld (publish a (fst (fst r)) (mem w0)) (snd r) (tail (weak_fails w)))
  end.
Proof.
  intros Hwf Hre.
  destruct (retrying_pointee _ _ _ Hwf Hre) as [Hcur Hval].
  rewrite update_loop_round by done. rewrite Hval. clear Hcur Hval.
  destruct w0 as [[h0 p0] e0 fl0], w as [[h p] e fl].
  destruct Hre as [Hslot Hh]. step_through. subst p.
  set (r := f (default T_default (pointee p0 h0)) e).
  destruct (pick alloc (dom h)) as [a|] eqn:Ha; simpl.
  - apply pick_unused, not_elem_of_dom in Ha.
    assert (h0 !! a = None ∧
            release upd (<[a := Block (fst (fst r)) 1]> h)
            = <[a := Block (fst (fst r)) 1]> (acquire p0 h0)) as [Ha0 Hh1].
    { destruct upd as [ap|].
      - destruct Hh as [Hap [xp ->]]. apply not_elem_of_dom in Hap.
        rewrite lookup_insert in Ha. case_decide; [done|].
        rewrite lookup_acquire in Ha.
        split; [by case_decide; [destruct (h0 !! a)|]|].
        heap_eq.
      - subst h. rewrite lookup_acquire in Ha.
        split; [by case_decide; [destruct (h0 !! a)|]|done]. }
    rewrite Hh1. rewrite bool_decide_eq_true_2 by done.
    split; [by apply not_elem_of_dom|].
    split; [split; [done|split; [by apply not_elem_of_dom|by eexists]]|].
    destruct (hd false fl); simpl.
    + by rewrite release_acquire.
    + do 3 f_equal. destruct p0 as [o|]; [destruct Hwf as [b Hb]|]; heap_eq.
  - do 3 f_equal. destruct upd as [ap|].
    + destruct Hh as [Hap [xp ->]]. apply not_elem_of_dom in Hap.
      destruct p0 as [o|]; [destruct Hwf as [b Hb]|]; heap_eq.
    + subst h. rewrite release_null. by rewrite release_acquire.
Qed.

Lemma retrying_enter w : retrying w None
  (mkWorld (mkMem (acquire (slot w) (blocks w)) (slot w)) (ext w) (weak_fails w)).
Proof. by split. Qed.

(** Every way the loop of an undisturbed [update] can end. *)
Lemma update_loop_outcome {U} rounds (f : T → E → T * U * E) w0 :
  wf w0 → ∀ upd w, retrying w0 upd w →
  match update_loop T_default alloc rounds f (slot w0) upd w with
  | Returns u w' =>
      ∃ a e, (a ∉ dom (blocks w0)) ∧
        mem w' = publish a (fst (fst (f (current T_default w0) e))) (mem w0) ∧
        u = snd (fst (f (current T_default w0) e)) ∧
        ext w' = snd (f (current T_default w0) e)
  | Throws _ w' => mem w' = mem w0
  | Undefined => False
  | Spinning => True
  end.
Proof.
  intros Hwf. induction rounds as [|rounds IH]; intros upd w Hre; [done|].
  pose proof (retrying_round rounds f w0 upd w Hwf Hre) as Hround.
  cbv zeta in Hround.
  destruct (pick alloc (dom (blocks w))) as [a|].
  - destruct Hround as (Ha & Hre' & ->). destruct (hd false (weak_fails w)).
    + by apply IH.
    + by exists a, (ext w).
  - by rewrite Hround.
Qed.

(** The exchange fails spuriously [k] times and no allocation fails:
    the closure runs [k+1] times and its last run is published. *)
Lemma update_loop_retries {U} (f : T → E → T * U * E) w0 fl :
  wf w0 → (∀ used, is_Some (pick alloc used)) → hd false fl = false →
  ∀ k more upd w, retrying w0 upd w →
  weak_fails w = replicate k true ++ fl →
  ∃ a, (a ∉ dom (blocks w0)) ∧
    update_loop T_default alloc (S (k + more)) f (slot w0) upd w =
      let r := reinvoke f (current T_default w0) k (ext w) in
      Returns (snd (fst r)) (mkWorld (publish a (fst (fst r)) (mem w0)) (snd r) (tail fl)).
Proof.
  intros Hwf Htotal Hfl k more.
  induction k as [|k IH]; intros upd w Hre Hfails.
  - pose proof (retrying_round more f w0 upd w Hwf Hre) as Hround.
    cbv zeta in Hround. simpl in Hfails.
    destruct (Htotal (dom (blocks w))) as [a Ha]. rewrite Ha in Hround.
    destruct Hround as (Hfresh & _ & Hround). exists a. split; [done|].
    change (0 + more) with more. by rewrite Hround, Hfails, Hfl.
  - pose proof (retrying_round (S (k + more)) f w0 upd w Hwf Hre) as Hround.
    cbv zeta in Hround. simpl in Hfails.
    destruct (Htotal (dom (blocks w))) as [a Ha]. rewrite Ha in Hround.
    destruct Hround as (Hfresh & Hre' & Hround).
    rewrite Hfails in Hround, Hre'. cbn [hd tail] in Hround, Hre'.
    destruct (IH _ _ Hre' eq_refl) as (a' & Ha' & Hloop).
    exists a'. split; [done|].
    change (S k + more) with (S (k + more)).
    by rewrite Hround, Hloop.
Qed.

(** A published snapshot is what the slot holds and what readers see. *)
Lemma publish_world a v w (e : E) fl :
  wf w → a ∉ dom (blocks w) →
  let w' := mkWorld (publish a v (mem w)) e fl in
  holding w' ∧ wf w' ∧ current T_default w' = v ∧ slot w' = Some a.
Proof.
  destruct w as [[h p] e0 fl0]. intros Hp Ha. unfold holding. step_through.
  apply not_elem_of_dom in Ha.
  assert (release p (<[a := Block v 1]> h) !! a = Some (Block v 1)) as Hlook.
  { destruct p as [o|]; [destruct Hp as [b Hb]|]; heap_lookups. }
  split; [by exists a, (Block v 1)|].
  split; [by eexists|]. split; [|done].
  by rewrite (pointee_lookup _ _ _ Hlook).
Qed.

Lemma wf_cases w : wf w → (empty w ∨ holding w) ∧ ¬ (empty w ∧ holding w).
Proof.
  destruct w as [[h p] e fl]. unfold holding. step_through. intros Hp.
  destruct p as [o|].
  - destruct Hp as [b Hb]. split; [right; by exists o, b|]. by intros [? _].
  - split; [by left|]. by intros [_ (a & b & ? & _)].
Qed.

Lemma holding_wf w : holding w → wf w.
Proof. intros (a & b & Hs & Hb). unfold wf. rewrite Hs. simpl. by eexists. Qed.

Lemma empty_wf w : empty w → wf w.
Proof. unfold empty, wf. by intros ->. Qed.

Lemma current_empty w : empty w → current T_default w = T_default.
Proof. unfold empty, current. by intros ->. Qed.

Lemma current_holding w a b :
  slot w = Some a → blocks w !! a = Some b → current T_default w = stored b.
Proof.
  unfold current, pointee_or. intros -> Hb. by rewrite (pointee_lookup _ _ _ Hb).
Qed.

Lemma reinvoke_logged {U} (f : T → E → T * U * E) x k :
  ∀ (log : list T) (e : E),
    reinvoke (logged f) x k (log, e) =
      let r := reinvoke f x k e in
      (fst (fst r), snd (fst r), (log ++ replicate (S k) x, snd r)).
Proof.
  induction k as [|k IH]; intros log e; [done|].
  change (reinvoke (logged f) x (S k) (log, e))
    with (reinvoke (logged f) x k (log ++ [x], snd (f x e))).
  rewrite IH. cbv zeta. by rewrite <- app_assoc.
Qed.

(** [update] when the exchange fails spuriously [k] times and no allocation
    fails. *)
Lemma update_retries {U} (f : T → E → T * U * E) w k more fl :
  wf w → (∀ used, is_Some (pick alloc used)) →
  weak_fails w = replicate k true ++ fl → hd false fl = false →
  ∃ a, (a ∉ dom (blocks w)) ∧
    update T_default alloc (S (k + more)) f w =
      let r := reinvoke f (current T_default w) k (ext w) in
      Returns (snd (fst r)) (mkWorld (publish a (fst (fst r)) (mem w)) (snd r) (tail fl)).
Proof.
  intros Hwf Htotal Hfails Hfl. rewrite update_enters.
  apply (update_loop_retries f w fl Hwf Htotal Hfl k more None _ (retrying_enter w)).
  done.
Qed.

(** What [store] publishes is what [load] returns. *)
Lemma store_publishes v w a :
  wf w → pick alloc (dom (blocks w)) = Some a →
  let w' := mkWorld (publish a v (mem w)) (ext w) (weak_fails w) in
  store alloc v w = Returns tt w' ∧ load T_default w' = Returns v w'.
Proof.
  intros Hwf Ha. cbv zeta.
  destruct (publish_world a v w (ext w) (weak_fails w) Hwf)
    as (_ & Hwf' & Hcur & _); [by eapply pick_unused|].
  pose proof (load_returns _ Hwf') as Hload. rewrite Hcur in Hload.
  by rewrite store_outcome, Ha.
Qed.
End WrapperFacts.

(** ** What the specification says of one caller *)

Section OneCaller.
Context {T E : Type}.
Variable T_default : T.
Variable alloc : Allocator.
Implicit Types (w : World (T:=T) (E:=E)) (v t : T) (e : E) (fl : list bool).

(** C3 — read-after-write.  In a world without a dangling slot, when the
    allocation made by [store v] succeeds (at [a]), [store v] returns and a
    [load()] made right after it returns [v]. *)
Theorem store_then_load v w a :
  wf w → pick alloc (dom (blocks w)) = Some a →
  let w' := mkWorld (publish a v (mem w)) (ext w) (weak_fails w) in
  store alloc v w = Returns tt w' ∧
  load T_default w' = Returns v w' ∧
  bind (store alloc v) (λ _, load T_default) w = Returns v w'.
Proof.
  intros Hwf Ha. cbv zeta.
  destruct (store_publishes T_default alloc v w a Hwf Ha) as [Hstore Hload].
  unfold bind. by rewrite Hstore.
Qed.

(** C4 — empty-state semantics.  [reset()] returns and leaves the slot
    empty; on an empty slot [load()] returns [T()] and [load(out)] returns
    [false] with [out] as it was; on a slot holding a block, [load(out)]
    returns [true] with a copy of the stored value in [out]. *)
Theorem empty_state_semantics w (out : T) :
  wf w →
  (let w0 := mkWorld (mkMem (release (slot w) (blocks w)) None) (ext w) (weak_fails w) in
   reset w = Returns tt w0 ∧ empty w0 ∧
   load T_default w0 = Returns T_default w0 ∧
   load_into out w0 = Returns (false, out) w0) ∧
  match slot w with
  | None =>
      load T_default w = Returns T_default w ∧
      load_into out w = Returns (false, out) w
  | Some a =>
      ∃ b, blocks w !! a = Some b ∧
        load_into out w = Returns (true, stored b) w
  end.
Proof.
  intros Hwf. split.
  - cbv zeta. rewrite reset_returns. split; [done|]. split; [done|].
    split; [by rewrite load_returns|by rewrite (load_into_returns T_default)].
  - rewrite (load_into_returns T_default) by done.
    destruct (slot w) as [a|] eqn:Hs.
    + pose proof Hwf as Hwf'. unfold wf in Hwf'. rewrite Hs in Hwf'.
      destruct Hwf' as [b Hb]. exists b. split; [done|].
      by rewrite (current_holding T_default w a b).
    + rewrite load_returns by done. by rewrite current_empty.
Qed.

(** C5 — two states.  A world without a dangling slot is empty or holds a
    snapshot, never both.  [store], [init] and both forms of [update] leave
    the slot holding a snapshot whenever they return, and they do return
    when the allocation succeeds and the exchange is not made to fail;
    [reset] leaves the slot empty; [load], [load(out)], [read] and the
    comparison with [nullptr] return and leave the memory as it was. *)
Theorem two_states w :
  wf w →
  ((empty w ∨ holding w) ∧ ¬ (empty w ∧ holding w)) ∧
  (∀ v w', store alloc v w = Returns tt w' → holding w') ∧
  (∀ w', init T_default alloc w = Returns tt w' → holding w') ∧
  (∀ U rounds (f : T → E → T * U * E) u w',
      update T_default alloc rounds f w = Returns u w' → holding w') ∧
  (∀ rounds (g : T → E → T * E) w',
      update_void T_default alloc rounds g w = Returns tt w' → holding w') ∧
  (∀ a, pick alloc (dom (blocks w)) = Some a →
      (∀ v, ∃ w', store alloc v w = Returns tt w') ∧
      (∃ w', init T_default alloc w = Returns tt w') ∧
      (hd false (weak_fails w) = false →
       (∀ U rounds (f : T → E → T * U * E), ∃ u w',
           update T_default alloc (S rounds) f w = Returns u w') ∧
       (∀ rounds (g : T → E → T * E), ∃ w',
           update_void T_default alloc (S rounds) g w = Returns tt w'))) ∧
  (∃ w', reset w = Returns tt w' ∧ empty w') ∧
  (∃ v, load T_default w = Returns v w) ∧
  (∀ out, ∃ r, load_into out w = Returns r w) ∧
  (∀ U (f : T → E → T * U * E), ∃ u w',
      read T_default f w = Returns u w' ∧ mem w' = mem w) ∧
  (∃ b, is_null w = Returns b w).
Proof.
  intros Hwf.
  assert (∀ v w', store alloc v w = Returns tt w' → holding w') as Hstore.
  { intros v w'. rewrite store_outcome.
    destruct (pick alloc (dom (blocks w))) as [a|] eqn:Ha; [|done].
    intros [= <-].
    by destruct (publish_world T_default a v w (ext w) (weak_fails w) Hwf
                   (pick_unused _ _ _ Ha)) as [Hh _]. }
  assert (∀ U rounds (f : T → E → T * U * E) u w',
            update T_default alloc rounds f w = Returns u w' → holding w') as Hupd.
  { intros U rounds f u w'. rewrite update_enters. intros Hret.
    pose proof (update_loop_outcome T_default alloc rounds f w Hwf None _
                  (retrying_enter w)) as Hout.
    rewrite Hret in Hout. destruct Hout as (a & e & Ha & Hmem & _).
    destruct (publish_world T_default a (fst (fst (f (current T_default w) e)))
                w (ext w') (weak_fails w') Hwf Ha) as [Hhold _].
    rewrite <- Hmem in Hhold. by destruct w'. }
  split; [by apply wf_cases|].
  split; [done|]. split; [apply Hstore|]. split; [done|].
  split; [intros rounds g w'; rewrite update_void_unit; apply Hupd|].
  split.
  { intros a Ha.
    split; [intros v; eexists; by rewrite store_outcome, Ha|].
    split; [eexists; unfold init; by rewrite store_outcome, Ha|].
    intros Hfl. split.
    - intros U rounds f. do 2 eexists.
      by rewrite (update_once T_default alloc rounds f w a).
    - intros rounds g. eexists. rewrite update_void_unit.
      rewrite (update_once T_default alloc rounds (returning_unit g) w a) by done.
      done. }
  split; [eexists; by rewrite reset_returns|].
  split; [eexists; by apply load_returns|].
  split; [intros out; eexists; by apply (load_into_returns T_default)|].
  split; [intros U f; do 2 eexists; by rewrite read_returns|].
  eexists. apply is_null_returns.
Qed.

(** C6 — [read] frames the slot.  [read(f)] returns what [f] returns on the
    current value ([T()] for an empty slot); whatever [f] does to the
    object it is given, the memory is as before and a [load()] made after
    returns what a [load()] made before returns. *)
Theorem read_leaves_slot {U} (f : T → E → T * U * E) w :
  wf w →
  let r := f (current T_default w) (ext w) in
  let w' := mkWorld (mem w) (snd r) (weak_fails w) in
  read T_default f w = Returns (snd (fst r)) w' ∧
  load T_default w = Returns (current T_default w) w ∧
  load T_default w' = Returns (current T_default w) w'.
Proof.
  intros Hwf. cbv zeta. rewrite read_returns by done.
  split; [done|]. split; [by apply load_returns|].
  by rewrite load_returns.
Qed.

(** C7 — allocation failure.  In a world without a dangling slot:
    whenever [store] or either form of [update] throws — for [update] in
    whichever iteration of its loop, after any number of failed exchanges —
    what is thrown is [std::bad_alloc] and the memory, the slot and every
    block, is as before the call, so [load()] returns what it did.  Such
    throws happen: when the first [make_shared] fails, [store] and both
    forms of [update] throw; and when the first allocation succeeds, the
    exchange fails spuriously and the second [make_shared] fails, both forms
    of [update] throw in the second iteration, the closure having run
    twice, with the memory as before the call. *)
Theorem allocation_failure_keeps_slot {U} v rounds
    (f : T → E → T * U * E) (g : T → E → T * E) w :
  wf w →
  (∀ x w', store alloc v w = Throws x w' → x = bad_alloc ∧ w' = w) ∧
  (∀ n x w', update T_default alloc n f w = Throws x w' →
     x = bad_alloc ∧ mem w' = mem w ∧
     load T_default w' = Returns (current T_default w) w') ∧
  (∀ n x w', update_void T_default alloc n g w = Throws x w' →
     x = bad_alloc ∧ mem w' = mem w ∧
     load T_default w' = Returns (current T_default w) w') ∧
  (pick alloc (dom (blocks w)) = None →
     store alloc v w = Throws bad_alloc w ∧
     (∃ w', update T_default alloc (S rounds) f w = Throws bad_alloc w' ∧
            mem w' = mem w ∧
            load T_default w' = Returns (current T_default w) w') ∧
     (∃ w', update_void T_default alloc (S rounds) g w = Throws bad_alloc w' ∧
            mem w' = mem w ∧
            load T_default w' = Returns (current T_default w) w')) ∧
  (∀ a fl, pick alloc (dom (blocks w)) = Some a → weak_fails w = true :: fl →
     pick alloc ({[a]} ∪ dom (blocks w)) = None →
     let copy := current T_default w in
     let w' := mkWorld (mem w) (snd (f copy (snd (f copy (ext w))))) fl in
     let w'' := mkWorld (mem w) (snd (g copy (snd (g copy (ext w))))) fl in
     update T_default alloc (S (S rounds)) f w = Throws bad_alloc w' ∧
     load T_default w' = Returns copy w' ∧
     update_void T_default alloc (S (S rounds)) g w = Throws bad_alloc w'' ∧
     load T_default w'' = Returns copy w'').
Proof.
  intros Hwf.
  assert (∀ w', mem w' = mem w →
            load T_default w' = Returns (current T_default w) w') as Hload.
  { intros [m' e' fl'] Hmem. simpl in Hmem. subst m'.
    rewrite load_returns by exact Hwf. done. }
  assert (∀ V (h : T → E → T * V * E) n x w',
            update T_default alloc n h w = Throws x w' →
            x = bad_alloc ∧ mem w' = mem w ∧
            load T_default w' = Returns (current T_default w) w') as Hany.
  { intros V h n x w'. rewrite update_enters. intros Hthr.
    pose proof (update_loop_outcome T_default alloc n h w Hwf None _
                  (retrying_enter w)) as Hout.
    rewrite Hthr in Hout. split; [by destruct x|]. split; [done|by apply Hload]. }
  assert (dom (blocks (mkWorld (mkMem (acquire (slot w) (blocks w)) (slot w))
                         (ext w) (weak_fails w))) = dom (blocks w)) as Hdom
    by apply dom_acquire.
  assert (∀ V (h : T → E → T * V * E),
            pick alloc (dom (blocks w)) = None →
            ∃ w', update T_default alloc (S rounds) h w = Throws bad_alloc w' ∧
                  mem w' = mem w ∧
                  load T_default w' = Returns (current T_default w) w') as Hfirst.
  { intros V h Hnone. rewrite update_enters.
    pose proof (retrying_round T_default alloc rounds h w None _ Hwf
                  (retrying_enter w)) as Hround.
    cbv zeta in Hround. rewrite Hdom, Hnone in Hround. rewrite Hround.
    eexists. split; [done|]. split; [done|]. by apply Hload. }
  assert (∀ V (h : T → E → T * V * E) a fl,
            pick alloc (dom (blocks w)) = Some a → weak_fails w = true :: fl →
            pick alloc ({[a]} ∪ dom (blocks w)) = None →
            update T_default alloc (S (S rounds)) h w =
              Throws bad_alloc
                (mkWorld (mem w)
                   (snd (h (current T_default w) (snd (h (current T_default w) (ext w)))))
                   fl)) as Hsecond.
  { intros V h a fl Ha Hfails Hnone. rewrite update_enters.
    pose proof (retrying_round T_default alloc (S rounds) h w None _ Hwf
                  (retrying_enter w)) as Hround.
    cbv zeta in Hround. rewrite Hdom, Ha in Hround.
    destruct Hround as (_ & Hre & ->).
    simpl weak_fails in *. rewrite Hfails in *. cbn [hd tail] in *.
    pose proof (retrying_round T_default alloc rounds h w (Some a) _ Hwf Hre) as Hround.
    cbv zeta in Hround.
    assert (dom (blocks (mkWorld
                   (mkMem (<[a := Block (fst (fst (h (current T_default w) (ext w)))) 1]>
                             (acquire (slot w) (blocks w))) (slot w))
                   (snd (h (current T_default w) (ext w))) fl))
            = {[a]} ∪ dom (blocks w)) as Hdom2.
    { unfold blocks; simpl. by rewrite dom_insert_L, dom_acquire. }
    cbn [ext weak_fails] in Hround. rewrite Hdom2, Hnone in Hround. exact Hround. }
  split.
  { intros x w'. rewrite store_outcome.
    destruct (pick alloc (dom (blocks w))); [done|].
    intros Heq. split; [by destruct x|congruence]. }
  split; [apply Hany|].
  split; [intros n x w'; rewrite update_void_unit; apply Hany|].
  split.
  { intros Hnone. split; [by rewrite store_outcome, Hnone|].
    split; [by apply Hfirst|].
    setoid_rewrite update_void_unit. by apply Hfirst. }
  intros a fl Ha Hfails Hnone. cbv zeta.
  split; [by eapply Hsecond|]. split; [by apply Hload|].
  split; [|by apply Hload].
  rewrite update_void_unit. erewrite Hsecond by done.
  unfold returning_unit. by repeat destruct (g _ _).
Qed.

(** C8 — [init] and assignment.  [init()] is [store(T())] and assigning
    [t] is [store(t)]; when its allocation succeeds, [init()] leaves the
    slot holding a snapshot, not null, and [load()] returns [T()]. *)
Theorem init_and_assign w :
  init T_default alloc w = store alloc T_default w ∧
  (∀ t, assign alloc t w = store alloc t w) ∧
  (∀ a, wf w → pick alloc (dom (blocks w)) = Some a →
      ∃ w', init T_default alloc w = Returns tt w' ∧ holding w' ∧
            is_null w' = Returns false w' ∧
            load T_default w' = Returns T_default w').
Proof.
  split; [done|]. split.
  - intros t. unfold assign, bind, ret.
    by destruct (store alloc t w) as [[] w'| | |].
  - intros a Hwf Ha. unfold init.
    destruct (store_publishes T_default alloc T_default w a Hwf Ha) as (Hst & Hld).
    destruct (publish_world T_default a T_default w (ext w) (weak_fails w) Hwf)
      as (Hhold & _ & _ & Hslot); [by eapply pick_unused|].
    eexists. split; [done|]. split; [done|]. split; [|done].
    rewrite is_null_returns. by rewrite Hslot.
Qed.

(** C9 — default construction.  [AtomicWrapper()] yields an empty slot:
    comparing with [nullptr] gives [true], [load()] returns [T()],
    [load(out)] returns [false] and [out] is as it was. *)
Theorem default_constructed_is_empty e fl (out : T) :
  let w := unconstructed e fl in
  construct_default e fl = Returns tt w ∧
  empty w ∧
  is_null w = Returns true w ∧
  is_not_null w = Returns false w ∧
  load T_default w = Returns T_default w ∧
  load_into out w = Returns (false, out) w.
Proof. by repeat split. Qed.

(** C10 — construction from a value or from constructor arguments.  When
    the allocation succeeds the constructor returns a slot that is not
    null, and [load()] returns the initial value, respectively the value
    built from the arguments. *)
Theorem constructed_holds_value {Args} v (build : Args → T) (args : Args) e fl a :
  pick alloc ∅ = Some a →
  (∃ w, construct_from alloc v e fl = Returns tt w ∧
        holding w ∧
        is_null w = Returns false w ∧
        is_not_null w = Returns true w ∧
        load T_default w = Returns v w) ∧
  (∃ w, construct_args alloc build args e fl = Returns tt w ∧
        holding w ∧
        is_null w = Returns false w ∧
        is_not_null w = Returns true w ∧
        load T_default w = Returns (build args) w).
Proof.
  intros Ha.
  assert (∀ x, ∃ w,
            bind (make_shared alloc x) assign_member (unconstructed e fl) = Returns tt w ∧
            holding w ∧ is_null w = Returns false w ∧
            is_not_null w = Returns true w ∧
            load T_default w = Returns x w) as Hmk.
  { intros x. unfold bind, make_shared, unconstructed, blocks; simpl.
    rewrite dom_empty_L, Ha. unfold assign_member. step_through.
    rewrite release_null.
    assert (holding (mkWorld (mkMem (<[a := Block x 1]> ∅) (Some a)) e fl)) as Hh.
    { exists a, (Block x 1). split; [done|]. apply lookup_insert_eq. }
    eexists. split; [done|]. split; [done|].
    split; [by rewrite is_null_returns|].
    split; [unfold is_not_null, bind; by rewrite is_null_returns|].
    rewrite load_returns by (by apply holding_wf).
    f_equal. unfold current, pointee_or; simpl.
    by rewrite (pointee_lookup a _ (Block x 1)) by apply lookup_insert_eq. }
  split; apply Hmk.
Qed.
End OneCaller.

Lemma store_then_load_witness :
  ∃ w', store (Sample.bounded 4) (Sample.mkStats 5 6) (Sample.holding_at_1 (Sample.mkStats 1 2))
        = Returns tt w' ∧
        load Sample.Stats_default w' = Returns (Sample.mkStats 5 6) w'.
Proof.
  eexists.
  refine (let H := store_then_load Sample.Stats_default (Sample.bounded 4)
                     (Sample.mkStats 5 6) (Sample.holding_at_1 (Sample.mkStats 1 2))
                     2%positive _ _ in conj (proj1 H) (proj1 (proj2 H))).
  - eexists. reflexivity.
  - vm_compute. reflexivity.
Defined.

(** C1, as amended — an undisturbed [update].  In a world without a
    dangling slot, when no allocation fails and the weak compare-exchange
    fails spuriously [k] times before it succeeds, [update(f)] calls [f]
    [k+1] times, each time on a fresh copy of the current value ([T()] for
    an empty slot): an [f] made to record its arguments has recorded that
    copy [k+1] times.  The object as the last call left it is what the slot
    then holds and what [load()] returns, and the value-returning form
    returns what the last call returned.  With [k = 0] that is one call. *)
Theorem update_undisturbed {T E U} (T_default : T) (alloc : Allocator) k more
    (f : T → E → T * U * E) (g : T → E → T * E)
    (w : World (T:=T) (E:=E)) (log : list T) fl :
  wf w → (∀ used, is_Some (pick alloc used)) →
  weak_fails w = replicate k true ++ fl → hd false fl = false →
  let copy := current T_default w in
  (∃ a, let r := reinvoke f copy k (ext w) in
        let w' := mkWorld (publish a (fst (fst r)) (mem w)) (snd r) (tail fl) in
        update T_default alloc (S (k + more)) f w = Returns (snd (fst r)) w' ∧
        holding w' ∧
        load T_default w' = Returns (fst (fst r)) w') ∧
  (∃ a, let r := reinvoke (returning_unit g) copy k (ext w) in
        let w' := mkWorld (publish a (fst (fst r)) (mem w)) (snd r) (tail fl) in
        update_void T_default alloc (S (k + more)) g w = Returns tt w' ∧
        holding w' ∧
        load T_default w' = Returns (fst (fst r)) w') ∧
  (∃ a, let r := reinvoke f copy k (ext w) in
        update T_default alloc (S (k + more)) (logged f)
          (mkWorld (mem w) (log, ext w) (weak_fails w)) =
        Returns (snd (fst r))
          (mkWorld (publish a (fst (fst r)) (mem w))
                   (log ++ replicate (S k) copy, snd r) (tail fl))) ∧
  (k = 0 → calls_once T_default alloc (S more) f w).
Proof.
  intros Hwf Htotal Hfails Hfl. cbv zeta.
  assert (∀ V (h : T → E → T * V * E),
            ∃ a, let r := reinvoke h (current T_default w) k (ext w) in
                 let w' := mkWorld (publish a (fst (fst r)) (mem w)) (snd r) (tail fl) in
                 update T_default alloc (S (k + more)) h w = Returns (snd (fst r)) w' ∧
                 holding w' ∧ wf w' ∧ current T_default w' = fst (fst r) ∧
                 load T_default w' = Returns (fst (fst r)) w') as Hgen.
  { intros V h.
    destruct (update_retries T_default alloc h w k more fl Hwf Htotal Hfails Hfl)
      as (a & Ha & Hupd).
    exists a. cbv zeta in *. split; [done|].
    destruct (publish_world T_default a (fst (fst (reinvoke h (current T_default w) k (ext w))))
                w (snd (reinvoke h (current T_default w) k (ext w))) (tail fl) Hwf Ha)
      as (Hh & Hwf' & Hcur & _).
    split; [done|]. split; [done|]. split; [done|].
    rewrite load_returns by done. by rewrite Hcur. }
  split; [|split; [|split]].
  - destruct (Hgen U f) as (a & Hupd & Hh & _ & _ & Hld). by exists a.
  - destruct (Hgen unit (returning_unit g)) as (a & Hupd & Hh & _ & _ & Hld).
    exists a. rewrite update_void_unit. split; [|done].
    rewrite Hupd. by destruct (snd (fst _)).
  - destruct (update_retries T_default alloc (logged f)
                (mkWorld (mem w) (log, ext w) (weak_fails w)) k more fl
                Hwf Htotal Hfails Hfl) as (a & _ & Hupd).
    exists a. rewrite Hupd. cbv zeta. simpl.
    by rewrite reinvoke_logged.
  - intros ->. destruct (Hgen U f) as (a & Hupd & _ & _ & Hcur & _).
    unfold calls_once. cbv zeta. eexists. split; [exact Hupd|]. by split.
Qed.

Lemma update_undisturbed_witness :
  ∃ w', update Sample.Stats_default Sample.unbounded 2 (Sample.add_sample 10)
          (Sample.holding_at_1_shaky (Sample.mkStats 1 2)) = Returns 12%Z w' ∧
        ext w' = 2 ∧
        load Sample.Stats_default w' = Returns (Sample.mkStats 2 12) w'.
Proof.
  destruct (proj1 (update_undisturbed Sample.Stats_default Sample.unbounded 1 0
                     (Sample.add_sample 10) Sample.count_up
                     (Sample.holding_at_1_shaky (Sample.mkStats 1 2)) [] []
                     (ex_intro _ _ eq_refl) (λ used, ex_intro _ _ eq_refl)
                     eq_refl eq_refl))
    as (a & Hupd & _ & Hload).
  eexists. split; [exact Hupd|]. split; [reflexivity|exact Hload].
Defined.

(** C1, as stated, fails: with one spurious failure of the weak exchange
    pending and nobody else touching the slot, the closure runs twice (it
    counts its runs in what it captures), not once. *)
Lemma update_reruns_closure_on_spurious_failure :
  wf (Sample.holding_at_1_shaky (Sample.mkStats 1 2)) ∧
  (∃ w', update Sample.Stats_default (Sample.bounded 4) 2 (Sample.add_sample 10)
           (Sample.holding_at_1_shaky (Sample.mkStats 1 2)) = Returns 12%Z w' ∧
         ext w' = 2) ∧
  ¬ calls_once Sample.Stats_default (Sample.bounded 4) 2 (Sample.add_sample 10)
      (Sample.holding_at_1_shaky (Sample.mkStats 1 2)).
Proof.
  split; [by eexists|]. split.
  - eexists. split; [vm_compute; reflexivity|reflexivity].
  - unfold calls_once. cbv zeta. intros (w' & Hupd & Hext & _).
    vm_compute in Hupd. injection Hupd as <-. vm_compute in Hext. discriminate.
Qed.

Lemma empty_state_semantics_witness :
  load_into (Sample.mkStats 7 7) (Sample.holding_at_1 (Sample.mkStats 1 2))
    = Returns (true, Sample.mkStats 1 2) (Sample.holding_at_1 (Sample.mkStats 1 2)).
Proof.
  destruct (proj2 (empty_state_semantics Sample.Stats_default
                     (Sample.holding_at_1 (Sample.mkStats 1 2)) (Sample.mkStats 7 7)
                     (ex_intro _ _ eq_refl))) as [b [Hb Hload]].
  rewrite Hload. vm_compute in Hb. injection Hb as <-. reflexivity.
Defined.

Lemma two_states_witness :
  ∃ w', reset (Sample.holding_at_1 (Sample.mkStats 1 2)) = Returns tt w' ∧ empty w'.
Proof.
  exact (proj1 (proj2 (proj2 (proj2 (proj2 (proj2 (proj2
    (two_states Sample.Stats_default (Sample.bounded 4)
       (Sample.holding_at_1 (Sample.mkStats 1 2)) (ex_intro _ _ eq_refl))))))))).
Defined.

Lemma read_leaves_slot_witness :
  ∃ w', read Sample.Stats_default Sample.peek_and_scribble
          (Sample.holding_at_1 (Sample.mkStats 1 2)) = Returns 2%Z w' ∧
        load Sample.Stats_default w' = Returns (Sample.mkStats 1 2) w'.
Proof.
  eexists.
  exact (let H := read_leaves_slot Sample.Stats_default Sample.peek_and_scribble
                    (Sample.holding_at_1 (Sample.mkStats 1 2)) (ex_intro _ _ eq_refl) in
         conj (proj1 H) (proj2 (proj2 H))).
Defined.

Lemma allocation_failure_keeps_slot_witness :
  (store (Sample.bounded 1) (Sample.mkStats 5 6) (Sample.holding_at_1 (Sample.mkStats 1 2))
     = Throws bad_alloc (Sample.holding_at_1 (Sample.mkStats 1 2)) ∧
   ∃ w', update Sample.Stats_default (Sample.bounded 1) 1 (Sample.add_sample 10)
           (Sample.holding_at_1 (Sample.mkStats 1 2)) = Throws bad_alloc w' ∧
         mem w' = mem (Sample.holding_at_1 (Sample.mkStats 1 2)) ∧
         load Sample.Stats_default w' = Returns (Sample.mkStats 1 2) w') ∧
  (update Sample.Stats_default (Sample.bounded 2) 2 (Sample.add_sample 10)
     (Sample.holding_at_1_shaky (Sample.mkStats 1 2))
     = Throws bad_alloc (mkWorld (mem (Sample.holding_at_1 (Sample.mkStats 1 2))) 2 []) ∧
   load Sample.Stats_default (mkWorld (mem (Sample.holding_at_1 (Sample.mkStats 1 2))) 2 [])
     = Returns (Sample.mkStats 1 2)
         (mkWorld (mem (Sample.holding_at_1 (Sample.mkStats 1 2))) 2 [])).
Proof.
  split.
  - refine (let H := proj1 (proj2 (proj2 (proj2
                       (allocation_failure_keeps_slot Sample.Stats_default (Sample.bounded 1)
                          (Sample.mkStats 5 6) 0 (Sample.add_sample 10) Sample.count_up
                          (Sample.holding_at_1 (Sample.mkStats 1 2)) _)))) _ in
            conj (proj1 H) (proj1 (proj2 H))).
    + eexists. reflexivity.
    + vm_compute. reflexivity.
  - refine (let H := proj2 (proj2 (proj2 (proj2
                       (allocation_failure_keeps_slot Sample.Stats_default (Sample.bounded 2)
                          (Sample.mkStats 5 6) 0 (Sample.add_sample 10) Sample.count_up
                          (Sample.holding_at_1_shaky (Sample.mkStats 1 2)) _))))
                     2%positive [] _ _ _ in
            conj (proj1 H) (proj1 (proj2 H))).
    + eexists. reflexivity.
    + vm_compute. reflexivity.
    + reflexivity.
    + vm_compute. reflexivity.
Defined.

Lemma init_and_assign_witness :
  ∃ w', init Sample.Stats_default (Sample.bounded 4)
          (Sample.holding_at_1 (Sample.mkStats 1 2)) = Returns tt w' ∧
        holding w' ∧ is_null w' = Returns false w' ∧
        load Sample.Stats_default w' = Returns Sample.Stats_default w'.
Proof.
  refine (proj2 (proj2 (init_and_assign Sample.Stats_default (Sample.bounded 4)
                          (Sample.holding_at_1 (Sample.mkStats 1 2))))
            2%positive _ _).
  - eexists. reflexivity.
  - vm_compute. reflexivity.
Defined.

Lemma constructed_holds_value_witness :
  ∃ w : World (T:=Sample.Stats) (E:=nat),
    construct_from (Sample.bounded 4) (Sample.mkStats 3 4) 0 [] = Returns tt w ∧
    holding w ∧ is_null w = Returns false w ∧ is_not_null w = Returns true w ∧
    load Sample.Stats_default w = Returns (Sample.mkStats 3 4) w.
Proof.
  refine (proj1 (constructed_holds_value Sample.Stats_default (Sample.bounded 4)
                   (Sample.mkStats 3 4) (λ n : Z, Sample.mkStats n n) 9%Z 0 []
                   1%positive _)).
  vm_compute. reflexivity.
Defined.

(** ** Owners and stored values under the heap operations *)

Section OwnerFacts.
Context {T : Type}.
Implicit Types (h : gmap addr (block T)) (p q : shared_ptr) (a k : addr).

Lemma owners_0 h a : owners h a = 0 ↔ h !! a = None.
Proof.
  unfold owners. destruct (h !! a) as [b|]; [|done].
  split; [lia|done].
Qed.

Lemma owners_pointee h a : owners h a ≠ 0 ↔ is_Some (pointee (Some a) h).
Proof.
  rewrite owners_0. unfold pointee; simpl.
  rewrite fmap_is_Some. by rewrite not_eq_None_Some.
Qed.

Lemma owners_acquire p h a :
  owners (acquire p h) a = if decide (owners h a = 0) then 0 else owners h a + holds a p.
Proof.
  unfold owners, holds. rewrite lookup_acquire.
  destruct (h !! a) as [[v n]|]; repeat case_decide; simpl; lia.
Qed.

Lemma owners_release p h a :
  owners (release p h) a = owners h a - holds a p.
Proof.
  unfold owners, holds. rewrite lookup_release.
  destruct (h !! a) as [[v n]|]; repeat case_decide; simpl; try lia.
  unfold unshare; simpl. case_decide; simpl; lia.
Qed.

Lemma owners_insert k v h a :
  owners (<[k := Block v 1]> h) a = if decide (k = a) then 1 else owners h a.
Proof.
  unfold owners. rewrite lookup_insert. by case_decide.
Qed.

Lemma pointee_release p h a :
  pointee (Some a) (release p h) =
    if decide (owners (release p h) a = 0) then None else pointee (Some a) h.
Proof.
  rewrite owners_release. unfold pointee, owners, holds; simpl.
  rewrite lookup_release.
  destruct (h !! a) as [[v n]|]; repeat case_decide; simpl; try done; try lia.
  all: unfold unshare; simpl; case_decide; simpl in *; try done; lia.
Qed.

Lemma pointee_insert k v h a :
  pointee (Some a) (<[k := Block v 1]> h) =
    if decide (k = a) then Some v else pointee (Some a) h.
Proof.
  unfold pointee; simpl. rewrite lookup_insert. by case_decide.
Qed.
End OwnerFacts.

(** ** The interleaving keeps its invariant *)

Lemma sum_list_insert {A} (g : A → nat) (l : list A) i x y :
  l !! i = Some x →
  sum_list (g <$> <[i := y]> l) + g x = sum_list (g <$> l) + g y.
Proof.
  revert i. induction l as [|z l IH]; intros [|i] Hi; simplify_eq/=; [lia|].
  specialize (IH i Hi). lia.
Qed.

Lemma sum_list_lookup_le {A} (g : A → nat) (l : list A) i x :
  l !! i = Some x → g x ≤ sum_list (g <$> l).
Proof.
  revert i. induction l as [|z l IH]; intros [|i] Hi; simplify_eq/=; [lia|].
  specialize (IH i Hi). lia.
Qed.

Section InterleavingFacts.
Context {T : Type}.
Variable T_default : T.
Variable updateFunction : T → T.
Implicit Types (c : conf T) (fr : frame T) (m : Mem T) (h : gmap addr (block T)).

Lemma holders_step a c i fr fr' m' :
  pool c !! i = Some fr →
  holders a (Conf m' (<[i := fr']> (pool c))) + frame_holds a fr
  = holds a (objectPtr m') + sum_list (frame_holds a <$> pool c) + frame_holds a fr'.
Proof.
  intros Hi. unfold holders; simpl.
  pose proof (sum_list_insert (frame_holds a) (pool c) i fr fr' Hi). lia.
Qed.

(** A pointer that the slot or a frame holds owns a block that exists. *)
Lemma counted_slot c a :
  counted c → objectPtr (shared c) = Some a → owners (heap (shared c)) a ≠ 0.
Proof.
  intros Hc Hs. rewrite (Hc a). unfold holders, holds. rewrite Hs.
  case_decide; [lia|done].
Qed.

Lemma counted_frame c i fr a :
  counted c → pool c !! i = Some fr →
  currentObjectPtr fr = Some a ∨ updateObjectPtr fr = Some a →
  owners (heap (shared c)) a ≠ 0.
Proof.
  intros Hc Hi Hp. rewrite (Hc a). unfold holders.
  pose proof (sum_list_lookup_le (frame_holds a) (pool c) i fr Hi) as Hle.
  assert (1 ≤ frame_holds a fr); [|lia].
  unfold frame_holds, holds. destruct Hp as [-> | ->]; repeat case_decide; try done; lia.
Qed.

Lemma frame_sound_stable h h' fr :
  pointee (currentObjectPtr fr) h' = pointee (currentObjectPtr fr) h →
  pointee (updateObjectPtr fr) h' = pointee (updateObjectPtr fr) h →
  frame_sound T_default updateFunction h fr →
  frame_sound T_default updateFunction h' fr.
Proof.
  unfold frame_sound, pointee_or. intros -> ->. done.
Qed.

(** What is left to check for one step once the locals and the memory of
    the caller that moved are known. *)
Lemma invariant_step v0 c i fr fr' m' :
  invariant T_default updateFunction v0 c →
  pool c !! i = Some fr →
  counted (Conf m' (<[i := fr']> (pool c))) →
  (∀ a, owners (heap (shared c)) a ≠ 0 → owners (heap m') a ≠ 0 →
        pointee (Some a) (heap m') = pointee (Some a) (heap (shared c))) →
  frame_sound T_default updateFunction (heap m') fr' →
  (objectPtr m' = objectPtr (shared c) ∧ swapped fr' = swapped fr) ∨
  (swapped fr = 0 ∧ swapped fr' = 1 ∧
   visible T_default m' = updateFunction (visible T_default (shared c))) →
  invariant T_default updateFunction v0 (Conf m' (<[i := fr']> (pool c))).
Proof.
  intros (Hc & Hsound & Hvis) Hi Hc' Hstable Hfr' Hslot.
  assert (∀ p, (∀ a, p = Some a →
                  owners (heap (shared c)) a ≠ 0 ∧ owners (heap m') a ≠ 0) →
               pointee p (heap m') = pointee p (heap (shared c))) as Hkeep.
  { intros [a|] Hp; [|done]. destruct (Hp a eq_refl). by apply Hstable. }
  split; [done|]. split; simpl.
  - intros j frj Hj. destruct (decide (i = j)) as [<-|Hne].
    + rewrite list_lookup_insert_eq in Hj by (by eapply lookup_lt_Some).
      by simplify_eq.
    + assert (pool (Conf m' (<[i := fr']> (pool c))) !! j = Some frj) as Hj' by done.
      rewrite list_lookup_insert_ne in Hj by done.
      apply (frame_sound_stable (heap (shared c))); [| |by eapply Hsound].
      * apply Hkeep. intros a Ha. split.
        -- eapply counted_frame; eauto.
        -- eapply (counted_frame _ j frj a Hc'); eauto.
      * apply Hkeep. intros a Ha. split.
        -- eapply counted_frame; eauto.
        -- eapply (counted_frame _ j frj a Hc'); eauto.
  - pose proof (sum_list_insert swapped (pool c) i fr fr' Hi) as Hsum.
    destruct Hslot as [[Hs Hsw]|(Hsw & Hsw' & Hv)].
    + replace (sum_list (swapped <$> <[i := fr']> (pool c)))
        with (sum_list (swapped <$> pool c)) by lia.
      rewrite <- Hvis. unfold visible, pointee_or. rewrite Hs. f_equal.
      apply Hkeep. intros a Ha. split.
      * by apply counted_slot.
      * apply (counted_slot _ a Hc'). simpl. by rewrite Hs.
    + replace (sum_list (swapped <$> <[i := fr']> (pool c)))
        with (S (sum_list (swapped <$> pool c))) by lia.
      simpl. by rewrite <- Hvis.
Qed.

(** The new use counts are the new numbers of owners. *)
Ltac count_owners Hc Hle Hi :=
  match goal with
  | |- counted (Conf ?m' (<[_ := ?fr']> (pool ?c))) =>
      let a := fresh "a" in
      intros a; specialize (Hc a); specialize (Hle a);
      pose proof (holders_step a c _ _ fr' m' Hi);
      simpl in *; rewrite ?owners_release, ?owners_acquire, ?owners_insert;
      unfold holders, frame_holds, holds in *; simpl in *;
      repeat case_decide; simplify_eq; try lia
  end.

(** A block that has owners before and after the step stores what it did. *)
Ltac keep_values :=
  let a := fresh "a" in
  let Ha := fresh "Ha" in
  let Ha' := fresh "Ha'" in
  intros a Ha Ha'; simpl in *;
  repeat first
    [ rewrite pointee_acquire
    | rewrite pointee_release;
      match goal with
      | |- context [decide (owners ?h ?k = 0)] =>
          destruct (decide (owners h k = 0));
          [ exfalso; revert Ha'; rewrite ?owners_release in *; lia | ]
      end
    | rewrite pointee_insert;
      match goal with
      | |- context [decide (?k = ?k')] => destruct (decide (k = k'))
      end ];
  simplify_eq; try done.

Lemma exec_invariant v0 d c c' :
  invariant T_default updateFunction v0 c →
  exec T_default updateFunction d c = Some c' →
  invariant T_default updateFunction v0 c'.
Proof.
  intros Hinv Hexec. unfold exec in Hexec.
  destruct (pool c !! who d) as [fr|] eqn:Hi; simpl in Hexec; [|done].
  destruct (frame_step T_default updateFunction d fr (shared c))
    as [[fr' m']|] eqn:Hstep; simpl in Hexec; [|done].
  injection Hexec as <-.
  pose proof Hinv as (Hc & Hsound & Hvis).
  pose proof (Hsound _ _ Hi) as Hfr.
  pose proof (λ a, sum_list_lookup_le (frame_holds a) (pool c) _ fr Hi) as Hle.
  destruct fr as [pc cur upd obj]. unfold frame_step in Hstep. simpl in Hstep.
  unfold frame_sound in Hfr. simpl in Hfr.
  destruct pc; simpl in Hstep.
  - (* atomic_load *)
    simplify_eq. destruct Hfr as [-> ->].
    apply (invariant_step _ _ _ _ _ _ Hinv Hi).
    + count_owners Hc Hle Hi.
    + keep_values.
    + done.
    + by left.
  - (* the copy and the call *)
    assert (∃ v, pointee_or T_default cur (heap (shared c)) = v ∧
                 fr' = Frame AtMake cur upd (updateFunction v) ∧ m' = shared c)
      as (v & Hv & -> & ->).
    { destruct cur as [k|]; simplify_eq/=; [|by eexists].
      destruct (pointee (Some k) (heap (shared c))) as [v|] eqn:Hk; simplify_eq/=.
      exists v. unfold pointee_or. by rewrite Hk. }
    apply (invariant_step _ _ _ _ _ _ Hinv Hi).
    + count_owners Hc Hle Hi.
    + keep_values.
    + unfold frame_sound; simpl. by rewrite Hv.
    + by left.
  - (* make_shared *)
    destruct (place d) as [k|].
    + case_decide as Hk; simplify_eq.
      apply not_elem_of_dom, owners_0 in Hk.
      pose proof (λ a, counted_frame _ _ _ a Hc Hi) as Hheld. simpl in Hheld.
      match goal with
      | |- invariant _ _ _ (Conf ?m' (<[?i := ?fr']> _)) =>
          assert (counted (Conf m' (<[i := fr']> (pool c)))) as Hc'
            by (count_owners Hc Hle Hi);
          assert (∀ a, owners (heap (shared c)) a ≠ 0 → owners (heap m') a ≠ 0 →
                       pointee (Some a) (heap m') = pointee (Some a) (heap (shared c)))
            as Hst by keep_values
      end.
      pose proof (λ a, counted_frame _ (who d) _ a Hc'
                         (list_lookup_insert_eq _ _ _ (lookup_lt_Some _ _ _ Hi)))
        as Hheld'.
      simpl in Hheld'.
      apply (invariant_step _ _ _ _ _ _ Hinv Hi Hc' Hst).
      * unfold frame_sound, pointee_or; simpl.
        assert (pointee cur (release upd (<[k := Block
                  (updateFunction (default T_default (pointee cur (heap (shared c))))) 1]>
                  (heap (shared c)))) = pointee cur (heap (shared c))) as ->.
        { destruct cur as [a|]; [|done]. apply Hst; [|apply Hheld']; auto. }
        rewrite pointee_release.
        destruct (decide (owners _ k = 0)) as [H0|_]; [|by rewrite pointee_insert, decide_True].
        exfalso. revert H0. apply Hheld'. auto.
      * by left.
    + simplify_eq.
      apply (invariant_step _ _ _ _ _ _ Hinv Hi).
      * count_owners Hc Hle Hi.
      * keep_values.
      * done.
      * by left.
  - (* atomic_compare_exchange_weak *)
    unfold atomic_compare_exchange_weak in Hstep.
    destruct (negb (spuriously d) && bool_decide (objectPtr (shared c) = cur)) eqn:Hok;
      simplify_eq.
    + apply andb_true_iff in Hok as [_ Hsame]. apply bool_decide_eq_true in Hsame.
      pose proof (λ a, counted_frame _ _ _ a Hc Hi) as Hheld. simpl in Hheld.
      match goal with
      | |- invariant _ _ _ (Conf ?m' (<[?i := ?fr']> _)) =>
          assert (counted (Conf m' (<[i := fr']> (pool c)))) as Hc'
            by (count_owners Hc Hle Hi);
          assert (∀ a, owners (heap (shared c)) a ≠ 0 → owners (heap m') a ≠ 0 →
                       pointee (Some a) (heap m') = pointee (Some a) (heap (shared c)))
            as Hst by keep_values
      end.
      pose proof (λ a, counted_frame _ (who d) _ a Hc'
                         (list_lookup_insert_eq _ _ _ (lookup_lt_Some _ _ _ Hi)))
        as Hheld'.
      simpl in Hheld'.
      apply (invariant_step _ _ _ _ _ _ Hinv Hi Hc' Hst).
      * done.
      * right. split; [done|]. split; [done|].
        unfold visible, pointee_or; simpl.
        destruct upd as [u|]; [|done]. simpl in Hst.
        rewrite Hst; [by rewrite Hfr, Hsame| |]; [apply Hheld|apply Hheld']; auto.
    + apply (invariant_step _ _ _ _ _ _ Hinv Hi).
      * count_owners Hc Hle Hi.
      * keep_values.
      * done.
      * by left.
  - (* the destructors at return *)
    simplify_eq.
    apply (invariant_step _ _ _ _ _ _ Hinv Hi).
    + count_owners Hc Hle Hi.
    + keep_values.
    + done.
    + by left.
  - done.
  - done.
Qed.

Lemma run_invariant v0 ds :
  ∀ c c', invariant T_default updateFunction v0 c →
          run T_default updateFunction ds c = Some c' →
          invariant T_default updateFunction v0 c'.
Proof.
  induction ds as [|d ds IH]; intros c c' Hinv Hrun; simpl in Hrun.
  - by simplify_eq.
  - destruct (exec T_default updateFunction d c) as [c1|] eqn:Hexec; [|done].
    simpl in Hrun. eapply IH; [|done]. by eapply exec_invariant.
Qed.

Lemma run_length ds :
  ∀ c c', run T_default updateFunction ds c = Some c' →
          length (pool c') = length (pool c).
Proof.
  induction ds as [|d ds IH]; intros c c' Hrun; simpl in Hrun.
  - by simplify_eq.
  - destruct (exec T_default updateFunction d c) as [c1|] eqn:Hexec; [|done].
    simpl in Hrun. rewrite (IH _ _ Hrun).
    unfold exec in Hexec.
    destruct (pool c !! who d) as [fr|]; [|done]. simpl in Hexec.
    destruct (frame_step _ _ _ _ _) as [[fr' m']|]; [|done].
    simplify_eq/=. by rewrite length_insert.
Qed.

Lemma sum_list_replicate_0 {A} (g : A → nat) (x : A) n :
  g x = 0 → sum_list (g <$> replicate n x) = 0.
Proof. intros Hx. induction n as [|n IH]; simpl; [done|]. rewrite Hx. exact IH. Qed.

Lemma spawn_invariant K m :
  at_rest m →
  invariant T_default updateFunction (visible T_default m) (spawn T_default K m).
Proof.
  intros Hrest. unfold invariant, spawn; simpl. split; [|split].
  - intros a. unfold holders; simpl.
    rewrite sum_list_replicate_0 by done. rewrite (Hrest a). lia.
  - intros i fr Hi. apply lookup_replicate in Hi as [-> _]. by split.
  - by rewrite sum_list_replicate_0.
Qed.

Lemma swapped_all_returned (l : list (frame T)) :
  Forall (λ fr, at_point fr = Returned) l → sum_list (swapped <$> l) = length l.
Proof.
  induction 1 as [|fr l Hfr _ IH]; simpl; [done|].
  unfold swapped at 1. rewrite Hfr. f_equal. exact IH.
Qed.

(** Once every caller has returned, the slot shows the initial value with
    the closure applied once per caller. *)
Lemma all_returned_visible K m ds c :
  at_rest m →
  run T_default updateFunction ds (spawn T_default K m) = Some c →
  Forall (λ fr, at_point fr = Returned) (pool c) →
  visible T_default (shared c) = Nat.iter K updateFunction (visible T_default m) ∧
  alive (objectPtr (shared c)) (heap (shared c)).
Proof.
  intros Hrest Hrun Hall.
  destruct (run_invariant _ _ _ _ (spawn_invariant K m Hrest) Hrun) as (Hc & _ & Hvis).
  split.
  - rewrite Hvis, (swapped_all_returned _ Hall), (run_length _ _ _ Hrun).
    unfold spawn; simpl. by rewrite length_replicate.
  - destruct (objectPtr (shared c)) as [a|] eqn:Hs; [|done]. simpl.
    apply not_eq_None_Some. rewrite <- owners_0. by apply counted_slot.
Qed.
End InterleavingFacts.

(** ** What the specification says of several callers *)

Lemma iter_increments {T} (f : T → T) (field : T → Z) (v : T) K :
  (∀ x, field (f x) = (field x + 1)%Z) →
  field (Nat.iter K f v) = (field v + Z.of_nat K)%Z.
Proof.
  intros Hf. induction K as [|K IH]; simpl; [lia|].
  rewrite Hf, IH. lia.
Qed.

(** C2 — no lost updates.  [K] callers enter [update] on a memory at rest,
    each with a closure that adds one to a numeric field of the object, and
    their atomic steps interleave in any order, with any spurious failures
    of the weak exchange and any placement of the new blocks.  Once all [K]
    have returned, [load()] returns the initial value with the closure
    applied [K] times: its field is the initial field plus [K]. *)
Theorem no_lost_updates {T E} (T_default : T) (updateFunction : T → T)
    (field : T → Z) K (m : Mem T) ds c (e : E) fl :
  (∀ x, field (updateFunction x) = (field x + 1)%Z) →
  at_rest m →
  run T_default updateFunction ds (spawn T_default K m) = Some c →
  Forall (λ fr, at_point fr = Returned) (pool c) →
  ∃ v, load T_default (mkWorld (shared c) e fl) = Returns v (mkWorld (shared c) e fl) ∧
       v = Nat.iter K updateFunction (visible T_default m) ∧
       field v = (field (visible T_default m) + Z.of_nat K)%Z.
Proof.
  intros Hfield Hrest Hrun Hall.
  destruct (all_returned_visible T_default updateFunction K m ds c Hrest Hrun Hall)
    as [Hvis Halive].
  exists (visible T_default (shared c)). split; [|split].
  - by rewrite load_returns.
  - done.
  - rewrite Hvis. by apply iter_increments.
Qed.

Lemma no_lost_updates_witness :
  ∃ c v,
    run Sample.Stats_default Sample.increment
      (Sample.plan Sample.race
         (spawn Sample.Stats_default 3 (Sample.mem_at_1 (Sample.mkStats 0 7))))
      (spawn Sample.Stats_default 3 (Sample.mem_at_1 (Sample.mkStats 0 7))) = Some c ∧
    load Sample.Stats_default (mkWorld (shared c) 0 [])
      = Returns v (mkWorld (shared c) 0 []) ∧
    Sample.count v = 3%Z.
Proof.
  assert (at_rest (Sample.mem_at_1 (Sample.mkStats 0 7))) as Hrest.
  { intros a. unfold owners, holds, Sample.mem_at_1; simpl.
    rewrite lookup_singleton. repeat case_decide; simplify_eq; done. }
  destruct (run Sample.Stats_default Sample.increment
              (Sample.plan Sample.race
                 (spawn Sample.Stats_default 3 (Sample.mem_at_1 (Sample.mkStats 0 7))))
              (spawn Sample.Stats_default 3 (Sample.mem_at_1 (Sample.mkStats 0 7))))
    as [c|] eqn:Hrun; [|vm_compute in Hrun; discriminate].
  pose proof Hrun as Hval. vm_compute in Hval. injection Hval as Hval.
  destruct (no_lost_updates Sample.Stats_default Sample.increment Sample.count 3
              _ _ c 0 [] (λ x, eq_refl) Hrest Hrun) as (v & Hload & _ & Hcount).
  { rewrite <- Hval. vm_compute. repeat constructor. }
  exists c, v. split; [reflexivity|]. split; [exact Hload|]. exact Hcount.
Defined.

(** The same with 1, 8 and 64 callers running one after the other. *)
Lemma no_lost_updates_in_turn K :
  K ∈ [1; 8; 64] →
  ∃ c v,
    run Sample.Stats_default Sample.increment
      (Sample.plan (Sample.in_turn K)
         (spawn Sample.Stats_default K (Sample.mem_at_1 (Sample.mkStats 0 7))))
      (spawn Sample.Stats_default K (Sample.mem_at_1 (Sample.mkStats 0 7))) = Some c ∧
    Forall (λ fr, at_point fr = Returned) (pool c) ∧
    visible Sample.Stats_default (shared c) = v ∧
    Sample.count v = Z.of_nat K.
Proof.
  intros HK. repeat (apply elem_of_cons in HK as [->|HK]); [| | |by apply elem_of_nil in HK].
  all: eexists; eexists; split; [vm_compute; reflexivity|].
  all: split; [vm_compute; repeat constructor|]; split; vm_compute; reflexivity.
Qed.

(** ** Some interleaving lets every caller return *)

Section Progress.
Context {T : Type}.
Variable T_default : T.
Variable f : T → T.

Lemma run_app ds1 ds2 (c : conf T) :
  run T_default f (ds1 ++ ds2) c = run T_default f ds1 c ≫= run T_default f ds2.
Proof.
  revert c. induction ds1 as [|d ds1 IH]; intros c; simpl; [done|].
  destruct (exec T_default f d c) as [c'|]; simpl; [apply IH|done].
Qed.

Lemma exec_later d (m : Mem T) fr pl :
  exec T_default f (later d) (Conf m (fr :: pl))
  = (λ c, Conf (shared c) (fr :: pool c)) <$> exec T_default f d (Conf m pl).
Proof.
  unfold exec; simpl. destruct (pl !! who d) as [fr0|]; simpl; [|done].
  assert (frame_step T_default f (later d) fr0 m = frame_step T_default f d fr0 m)
    as -> by done.
  by destruct (frame_step T_default f d fr0 m) as [[fr' m']|].
Qed.

Lemma run_later ds : ∀ (m : Mem T) fr pl,
  run T_default f (later <$> ds) (Conf m (fr :: pl))
  = (λ c, Conf (shared c) (fr :: pool c)) <$> run T_default f ds (Conf m pl).
Proof.
  induction ds as [|d ds IH]; intros m fr pl; simpl; [done|].
  rewrite exec_later.
  destruct (exec T_default f d (Conf m pl)) as [[m' pl']|]; simpl; [apply IH|done].
Qed.

(** The first caller of the pool runs alone, start to finish. *)
Lemma run_alone (m : Mem T) a rest :
  alive (objectPtr m) (heap m) → a ∉ dom (heap m) →
  run T_default f (alone a) (Conf m (entered T_default :: rest))
  = Some (Conf (publish a (f (visible T_default m)) m)
               (Frame Returned None None (f (visible T_default m)) :: rest)).
Proof.
  intros Halive Hfresh.
  destruct m as [h p]. unfold visible, pointee_or, publish in *. simpl in *.
  set (v := default T_default (pointee p h)).
  set (h3 := <[a := Block (f v) 1]> (acquire p h)).
  set (h4 := release p (acquire (Some a) h3)).
  assert (exec T_default f (Decide 0 false None)
            (Conf (mkMem (acquire p h) p) (Frame AtCall p None T_default :: rest))
          = Some (Conf (mkMem (acquire p h) p) (Frame AtMake p None (f v) :: rest))) as H2.
  { unfold exec, frame_step; simpl. destruct p as [o|]; [|done].
    rewrite pointee_acquire. destruct Halive as [b Hb].
    subst v. by rewrite (pointee_lookup _ _ _ Hb). }
  assert (exec T_default f (Decide 0 false (Some a))
            (Conf (mkMem (acquire p h) p) (Frame AtMake p None (f v) :: rest))
          = Some (Conf (mkMem h3 p) (Frame AtSwap p (Some a) (f v) :: rest))) as H3.
  { unfold exec, frame_step; simpl.
    by rewrite decide_False by (by rewrite dom_acquire). }
  assert (exec T_default f (Decide 0 false None)
            (Conf (mkMem h3 p) (Frame AtSwap p (Some a) (f v) :: rest))
          = Some (Conf (mkMem h4 (Some a)) (Frame AtReturn p (Some a) (f v) :: rest))) as H4.
  { unfold exec, frame_step, atomic_compare_exchange_weak; simpl.
    by rewrite bool_decide_eq_true_2. }
  unfold alone. simpl run.
  change (exec T_default f (Decide 0 false None)
            (Conf (mkMem h p) (entered T_default :: rest)))
    with (Some (Conf (mkMem (acquire p h) p) (Frame AtCall p None T_default :: rest))).
  simpl. rewrite H2. simpl. rewrite H3. simpl. rewrite H4. simpl.
  unfold exec, frame_step; simpl. do 3 f_equal.
  subst h4 h3. apply not_elem_of_dom in Hfresh.
  destruct p as [o|]; [destruct Halive as [b Hb]|]; heap_eq.
Qed.

Lemma at_rest_alive (m : Mem T) : at_rest m → alive (objectPtr m) (heap m).
Proof.
  intros Hrest. destruct (objectPtr m) as [a|] eqn:Hp; [|done]. simpl.
  apply not_eq_None_Some. rewrite <- owners_0, (Hrest a), Hp.
  unfold holds. by rewrite decide_True.
Qed.

Lemma at_rest_publish (m : Mem T) a x :
  at_rest m → a ∉ dom (heap m) → at_rest (publish a x m).
Proof.
  intros Hrest Ha k. specialize (Hrest k). unfold publish; simpl.
  apply not_elem_of_dom, owners_0 in Ha.
  rewrite owners_release, owners_insert. unfold holds in *.
  repeat case_decide; simplify_eq; lia.
Qed.

(** For every number of callers there is an interleaving in which all of
    them return. *)
Lemma one_by_one_completes K : ∀ (m : Mem T),
  at_rest m →
  ∃ c, run T_default f (one_by_one T_default f K m) (spawn T_default K m) = Some c ∧
       Forall (λ fr, at_point fr = Returned) (pool c).
Proof.
  induction K as [|K IH]; intros m Hrest.
  - exists (spawn T_default 0 m). by split.
  - set (a := fresh (dom (heap m))).
    assert (a ∉ dom (heap m)) as Ha by apply is_fresh.
    destruct (IH (publish a (f (visible T_default m)) m)
                (at_rest_publish m a _ Hrest Ha)) as (c & Hrun & Hall).
    exists (Conf (shared c) (Frame Returned None None (f (visible T_default m)) :: pool c)).
    split; [|by constructor].
    change (one_by_one T_default f (S K) m)
      with (alone a ++ (later <$> one_by_one T_default f K
                                   (publish a (f (visible T_default m)) m))).
    rewrite run_app.
    change (spawn T_default (S K) m)
      with (Conf m (entered T_default :: replicate K (entered T_default))).
    rewrite (run_alone m a _ (at_rest_alive m Hrest) Ha). simpl.
    rewrite run_later.
    change (Conf (publish a (f (visible T_default m)) m) (replicate K (entered T_default)))
      with (spawn T_default K (publish a (f (visible T_default m)) m)).
    by rewrite Hrun.
Qed.
End Progress.

(** ** The two models agree on one caller *)

(** One caller stepping through [update] alone leaves the memory that the
    member function [update] leaves. *)
Lemma one_caller_agrees {T E} (T_default : T) (alloc : Allocator)
    (f : T → T) (m : Mem T) (e : E) a :
  alive (objectPtr m) (heap m) →
  pick alloc (dom (heap m)) = Some a →
  let m' := publish a (f (visible T_default m)) m in
  run T_default f (alone a) (spawn T_default 1 m)
    = Some (Conf m' [Frame Returned None None (f (visible T_default m))]) ∧
  update_void T_default alloc 1 (λ x e, (f x, e)) (mkWorld m e [])
    = Returns tt (mkWorld m' e []).
Proof.
  intros Halive Ha. cbv zeta.
  pose proof (pick_unused _ _ _ Ha) as Hfresh.
  split.
  - by apply run_alone.
  - rewrite update_void_unit.
    by rewrite (update_once T_default alloc 0 _ (mkWorld m e []) a).
Qed.

(** * More of the wrapper *)

(** ** One caller: blocks are freed, nothing leaks *)

Section Housekeeping.
Context {T E : Type}.
Variable T_default : T.
Variable alloc : Allocator.
Implicit Types (w : World (T:=T) (E:=E)) (v t : T) (m : Mem T).

Lemma settled_wf w : settled w → wf w.
Proof. apply at_rest_alive. Qed.

(** At rest, a non-empty slot means a heap of exactly one block. *)
Lemma at_rest_one_block m a x :
  at_rest m → objectPtr m = Some a → pointee (Some a) (heap m) = Some x →
  heap m = {[a := Block x 1]}.
Proof.
  intros Hrest Hp Hx. apply map_eq. intros k.
  pose proof (Hrest k) as Hk. rewrite Hp in Hk. unfold owners, holds in Hk.
  rewrite lookup_singleton. unfold pointee in Hx; simpl in Hx.
  destruct (decide (a = k)) as [Hak|Hak].
  - subst k. rewrite decide_True in Hk by done.
    destruct (heap m !! a) as [[y n]|]; simplify_eq/=.
    f_equal. f_equal. lia.
  - rewrite decide_False in Hk by congruence.
    destruct (heap m !! k) as [[y n]|]; [lia|done].
Qed.

Lemma at_rest_no_block m :
  at_rest m → objectPtr m = None → heap m = ∅.
Proof.
  intros Hrest Hp. apply map_eq. intros k. rewrite lookup_empty.
  apply owners_0. rewrite (Hrest k), Hp. done.
Qed.

Lemma at_rest_reset m : at_rest m → at_rest (mkMem (release (objectPtr m) (heap m)) None).
Proof.
  intros Hrest k. simpl. rewrite owners_release, (Hrest k).
  unfold holds. repeat case_decide; simplify_eq; lia.
Qed.

Lemma publish_one_block m a x :
  at_rest m → a ∉ dom (heap m) → heap (publish a x m) = {[a := Block x 1]}.
Proof.
  intros Hrest Ha.
  apply (at_rest_one_block (publish a x m) a x);
    [by apply at_rest_publish|reflexivity|].
  pose proof (at_rest_alive m Hrest) as Halive.
  unfold publish, pointee; simpl. rewrite lookup_release.
  rewrite decide_False; [by rewrite lookup_insert_eq|].
  intros Hp. rewrite Hp in Halive. simpl in Halive. by apply elem_of_dom in Halive.
Qed.

(** X1 — the writers free what they replace.  In a world at rest, [store],
    [init] and assignment from a value either throw and leave the world as
    it was, or return with a heap of exactly one block, the new snapshot
    with the slot as its only owner; [reset] and assignment from [nullptr]
    leave no block at all. *)
Theorem writers_free_superseded w t :
  settled w →
  let stored_alone v :=
    match pick alloc (dom (blocks w)) with
    | Some a => Returns tt (mkWorld (mkMem {[a := Block v 1]} (Some a)) (ext w) (weak_fails w))
    | None => Throws bad_alloc w
    end in
  let emptied := Returns tt (mkWorld (mkMem ∅ None) (ext w) (weak_fails w)) in
  store alloc t w = stored_alone t ∧
  assign alloc t w = stored_alone t ∧
  init T_default alloc w = stored_alone T_default ∧
  reset w = emptied ∧
  assign_null w = emptied.
Proof.
  intros Hrest. cbv zeta.
  assert (∀ v, store alloc v w =
               match pick alloc (dom (blocks w)) with
               | Some a => Returns tt (mkWorld (mkMem {[a := Block v 1]} (Some a))
                                         (ext w) (weak_fails w))
               | None => Throws bad_alloc w
               end) as Hstore.
  { intros v. rewrite store_outcome.
    destruct (pick alloc (dom (blocks w))) as [a|] eqn:Ha; [|done].
    do 2 f_equal. unfold publish. f_equal.
    apply (publish_one_block (mem w) a v Hrest). by eapply pick_unused. }
  assert (reset w = Returns tt (mkWorld (mkMem ∅ None) (ext w) (weak_fails w))) as Hreset.
  { rewrite reset_returns. do 3 f_equal.
    apply (at_rest_no_block (mkMem (release (slot w) (blocks w)) None));
      [by apply at_rest_reset|done]. }
  split; [apply Hstore|]. split.
  { unfold assign, bind, ret. rewrite Hstore.
    by destruct (pick alloc (dom (blocks w))). }
  split; [apply Hstore|]. split; [done|].
  unfold assign_null, bind, ret. by rewrite Hreset.
Qed.

(** X2 — [update] frees what it replaces and what it discards.  In a world
    at rest, however many times the exchange fails spuriously, an [update]
    that returns leaves a heap of exactly one block, holding the object as
    one call of the closure on the value at entry left it; an [update] that
    throws leaves the memory as it was at entry.  The snapshots of the
    failed attempts are gone. *)
Theorem update_frees_attempts {U} rounds (f : T → E → T * U * E) (g : T → E → T * E) w :
  settled w →
  match update T_default alloc rounds f w with
  | Returns u w' =>
      ∃ a e, mem w' = mkMem {[a := Block (fst (fst (f (current T_default w) e))) 1]} (Some a) ∧
             u = snd (fst (f (current T_default w) e))
  | Throws _ w' => mem w' = mem w
  | Undefined => False
  | Spinning => True
  end ∧
  match update_void T_default alloc rounds g w with
  | Returns _ w' =>
      ∃ a e, mem w' = mkMem {[a := Block (fst (g (current T_default w) e)) 1]} (Some a)
  | Throws _ w' => mem w' = mem w
  | Undefined => False
  | Spinning => True
  end.
Proof.
  intros Hrest.
  assert (∀ V (h : T → E → T * V * E),
            match update T_default alloc rounds h w with
            | Returns u w' =>
                ∃ a e, mem w' = mkMem {[a := Block (fst (fst (h (current T_default w) e))) 1]}
                                  (Some a) ∧
                       u = snd (fst (h (current T_default w) e))
            | Throws _ w' => mem w' = mem w
            | Undefined => False
            | Spinning => True
            end) as Hgen.
  { intros V h. rewrite update_enters.
    pose proof (update_loop_outcome T_default alloc rounds h w (settled_wf w Hrest) None _
                  (retrying_enter w)) as Hout.
    destruct (update_loop _ _ _ _ _ _ _) as [u w'|x w'| |]; try done.
    destruct Hout as (a & e & Ha & Hmem & Hu & _).
    exists a, e. split; [|done]. rewrite Hmem. unfold publish. f_equal.
    by apply (publish_one_block (mem w) a _ Hrest). }
  split; [apply Hgen|].
  rewrite update_void_unit. specialize (Hgen unit (returning_unit g)).
  destruct (update _ _ _ _ _) as [u w'|x w'| |]; try done.
  destruct Hgen as (a & e & Hmem & _). by exists a, e.
Qed.

(** X3 — the conversions.  [T(w)] after [w = t] is [t]; after
    [w = nullptr] the wrapper compares equal to [nullptr], [!=] says
    [false] and [T(w)] is [T()]; after [w = t] it does not compare equal to
    [nullptr].  Stated for an assignment whose allocation succeeds. *)
Theorem conversions_round_trip w t a :
  wf w → pick alloc (dom (blocks w)) = Some a →
  let w' := mkWorld (publish a t (mem w)) (ext w) (weak_fails w) in
  let w0 := mkWorld (mkMem (release (slot w) (blocks w)) None) (ext w) (weak_fails w) in
  bind (assign alloc t) (λ _, to_T T_default) w = Returns t w' ∧
  bind (assign alloc t) (λ _, is_null) w = Returns false w' ∧
  bind (assign alloc t) (λ _, is_not_null) w = Returns true w' ∧
  bind assign_null (λ _, to_T T_default) w = Returns T_default w0 ∧
  bind assign_null (λ _, is_null) w = Returns true w0 ∧
  bind assign_null (λ _, is_not_null) w = Returns false w0.
Proof.
  intros Hwf Ha. cbv zeta.
  destruct (store_publishes T_default alloc t w a Hwf Ha) as [Hstore Hload].
  destruct (publish_world T_default a t w (ext w) (weak_fails w) Hwf
              (pick_unused _ _ _ Ha)) as (_ & _ & _ & Hslot).
  assert (assign alloc t w
          = Returns tt (mkWorld (publish a t (mem w)) (ext w) (weak_fails w))) as Hassign.
  { unfold assign, bind, ret. by rewrite Hstore. }
  assert (assign_null w
          = Returns tt (mkWorld (mkMem (release (slot w) (blocks w)) None)
                          (ext w) (weak_fails w))) as Hnull.
  { unfold assign_null, bind, ret. by rewrite reset_returns. }
  unfold bind. rewrite Hassign, Hnull. unfold to_T.
  split; [done|].
  split; [by rewrite is_null_returns, Hslot|].
  split; [unfold is_not_null, bind; by rewrite is_null_returns, Hslot|].
  split; [by rewrite load_returns|].
  split; [by rewrite is_null_returns|].
  unfold is_not_null, bind. by rewrite is_null_returns.
Qed.

Lemma update_loop_spinning {U} (f : T → E → T * U * E) w0 :
  wf w0 → ∀ rounds upd w, retrying w0 upd w →
  update_loop T_default alloc rounds f (slot w0) upd w = Spinning →
  take rounds (weak_fails w) = replicate rounds true.
Proof.
  intros Hwf rounds. induction rounds as [|rounds IH]; intros upd w Hre Hspin; [done|].
  pose proof (retrying_round T_default alloc rounds f w0 upd w Hwf Hre) as Hround.
  cbv zeta in Hround.
  destruct (pick alloc (dom (blocks w))) as [a|].
  - destruct Hround as (_ & Hre' & Hround). rewrite Hround in Hspin.
    destruct (weak_fails w) as [|[|] fl] eqn:Hfl; simpl in Hspin; try done.
    simpl. f_equal. apply (IH _ _ Hre' Hspin).
  - by rewrite Hround in Hspin.
Qed.

(** X4 — the loop of [update] is bounded by the spurious failures.  With
    nobody else writing, [update] never dereferences a pointer whose block
    is gone, and it is still looping after [rounds] iterations only if the
    weak exchange failed spuriously in each of them; so it has returned or
    thrown after one more iteration than there are spurious failures. *)
Theorem update_loop_bounded {U} rounds (f : T → E → T * U * E) w :
  wf w →
  match update T_default alloc rounds f w with
  | Spinning => take rounds (weak_fails w) = replicate rounds true
  | Undefined => False
  | Returns _ _ | Throws _ _ => True
  end ∧
  (length (weak_fails w) < rounds →
   ∃ w', (∃ u, update T_default alloc rounds f w = Returns u w') ∨
         update T_default alloc rounds f w = Throws bad_alloc w').
Proof.
  intros Hwf.
  assert (match update T_default alloc rounds f w with
          | Spinning => take rounds (weak_fails w) = replicate rounds true
          | Undefined => False
          | Returns _ _ | Throws _ _ => True
          end) as Hcases.
  { rewrite update_enters.
    pose proof (update_loop_outcome T_default alloc rounds f w Hwf None _
                  (retrying_enter w)) as Hout.
    pose proof (update_loop_spinning f w Hwf rounds None _ (retrying_enter w)) as Hspin.
    destruct (update_loop _ _ _ _ _ _ _) as [u w'|x w'| |]; try done.
    by apply Hspin. }
  split; [done|]. intros Hlen.
  destruct (update T_default alloc rounds f w) as [u w'|[] w'| |]; try done.
  - exists w'. left. by exists u.
  - exists w'. by right.
  - apply (f_equal length) in Hcases.
    rewrite length_take, length_replicate in Hcases. lia.
Qed.

Lemma reinvoke_steady {U} (f : T → E → T * U * E) x k :
  steady f → ∀ e, fst (reinvoke f x k e) = fst (f x e).
Proof.
  intros Hf. induction k as [|k IH]; intros e; simpl; [done|].
  rewrite IH. apply Hf.
Qed.

(** X5 — retries do not compound.  When what the closure does to the object
    does not depend on what it captured, an undisturbed [update] whose
    exchange fails spuriously [k] times publishes and returns what a single
    call of the closure on the value at entry gives: every attempt starts
    again from a copy of the current value, not from the object of the
    attempt before. *)
Theorem retries_do_not_compound {U} (f : T → E → T * U * E) w k more fl :
  wf w → (∀ used, is_Some (pick alloc used)) →
  weak_fails w = replicate k true ++ fl → hd false fl = false →
  steady f →
  ∃ w', update T_default alloc (S (k + more)) f w
          = Returns (snd (fst (f (current T_default w) (ext w)))) w' ∧
        load T_default w' = Returns (fst (fst (f (current T_default w) (ext w)))) w'.
Proof.
  intros Hwf Htotal Hfails Hfl Hf.
  destruct (update_retries T_default alloc f w k more fl Hwf Htotal Hfails Hfl)
    as (a & Ha & Hupd).
  cbv zeta in Hupd.
  pose proof (reinvoke_steady f (current T_default w) k Hf (ext w)) as Hsame.
  destruct (publish_world T_default a (fst (fst (reinvoke f (current T_default w) k (ext w))))
              w (snd (reinvoke f (current T_default w) k (ext w))) (tail fl) Hwf Ha)
    as (_ & Hwf' & Hcur & _).
  exists (mkWorld (publish a (fst (fst (reinvoke f (current T_default w) k (ext w))))
                    (mem w))
                 (snd (reinvoke f (current T_default w) k (ext w))) (tail fl)).
  split.
  - rewrite Hupd. by rewrite Hsame.
  - rewrite load_returns by done. by rewrite Hcur, Hsame.
Qed.
End Housekeeping.

(** ** Several callers of [update]: safety, reclamation, progress *)

Section Callers.
Context {T : Type}.
Variable T_default : T.
Variable updateFunction : T → T.
Implicit Types (c : conf T) (fr : frame T) (m : Mem T) (h : gmap addr (block T)).

(** A block that has owners before and after a step stores what it did. *)
Lemma exec_keeps_values d c c' :
  exec T_default updateFunction d c = Some c' →
  ∀ a, owners (heap (shared c)) a ≠ 0 → owners (heap (shared c')) a ≠ 0 →
       pointee (Some a) (heap (shared c')) = pointee (Some a) (heap (shared c)).
Proof.
  intros Hexec. unfold exec in Hexec.
  destruct (pool c !! who d) as [fr|] eqn:Hi; simpl in Hexec; [|done].
  destruct (frame_step T_default updateFunction d fr (shared c))
    as [[fr' m']|] eqn:Hstep; simpl in Hexec; [|done].
  injection Hexec as <-. simpl.
  destruct fr as [pc cur upd obj]. unfold frame_step in Hstep. simpl in Hstep.
  intros a Ha Ha'.
  destruct pc; simpl in Hstep.
  - simplify_eq. simpl in *. by rewrite pointee_acquire.
  - destruct cur as [k|]; simplify_eq/=; [|done].
    by destruct (pointee (Some k) (heap (shared c))); simplify_eq/=.
  - destruct (place d) as [k|].
    + case_decide as Hk; simplify_eq. simpl in *.
      apply not_elem_of_dom, owners_0 in Hk.
      rewrite pointee_release, decide_False by done.
      rewrite pointee_insert, decide_False; [done|]. by intros <-.
    + simplify_eq. simpl in *.
      rewrite pointee_release, decide_False by done.
      rewrite owners_release in Ha'.
      rewrite pointee_release, decide_False; [done|lia].
  - unfold atomic_compare_exchange_weak in Hstep.
    destruct (negb (spuriously d) && bool_decide (objectPtr (shared c) = cur));
      simplify_eq; simpl in *.
    + rewrite pointee_release, decide_False by done. by rewrite pointee_acquire.
    + rewrite pointee_release, decide_False by done. by rewrite pointee_acquire.
  - simplify_eq. simpl in *.
    rewrite pointee_release, decide_False by done.
    rewrite owners_release in Ha'.
    rewrite pointee_release, decide_False; [done|lia].
  - done.
  - done.
Qed.

Lemma exec_pool d c c' :
  exec T_default updateFunction d c = Some c' →
  ∃ fr fr', pool c !! who d = Some fr ∧ pool c' = <[who d := fr']> (pool c).
Proof.
  unfold exec. intros Hexec.
  destruct (pool c !! who d) as [fr|]; simpl in Hexec; [|done].
  destruct (frame_step _ _ _ _ _) as [[fr' m']|]; simplify_eq/=.
  by exists fr, fr'.
Qed.

Lemma exec_others d c c' j :
  exec T_default updateFunction d c = Some c' → who d ≠ j →
  pool c' !! j = pool c !! j.
Proof.
  intros Hexec Hj. destruct (exec_pool d c c' Hexec) as (fr & fr' & _ & ->).
  by rewrite list_lookup_insert_ne.
Qed.

(** The configurations some interleaving reaches from [K] callers entering
    on a memory at rest. *)
Lemma reached_invariant K m ds c :
  at_rest m →
  run T_default updateFunction ds (spawn T_default K m) = Some c →
  invariant T_default updateFunction (visible T_default m) c.
Proof.
  intros Hrest Hrun.
  exact (run_invariant _ _ _ _ _ _ (spawn_invariant _ _ K m Hrest) Hrun).
Qed.

(** X6 — no caller ever reads a freed snapshot.  In every configuration an
    interleaving reaches, a caller has no step to make only if it has left
    [update] or the allocator offers an address that is in use: the copy at
    the top of the loop always finds the block of [currentObjectPtr]. *)
Theorem callers_never_stuck K m ds c d fr :
  at_rest m →
  run T_default updateFunction ds (spawn T_default K m) = Some c →
  pool c !! who d = Some fr →
  exec T_default updateFunction d c = None →
  left_the_call fr ∨
  (at_point fr = AtMake ∧ ∃ a, place d = Some a ∧ a ∈ dom (heap (shared c))).
Proof.
  intros Hrest Hrun Hi Hnone.
  destruct (reached_invariant K m ds c Hrest Hrun) as (Hc & _ & _).
  pose proof (λ a, counted_frame c (who d) fr a Hc Hi) as Hheld.
  unfold exec in Hnone. rewrite Hi in Hnone. simpl in Hnone.
  destruct (frame_step T_default updateFunction d fr (shared c))
    as [[fr' m']|] eqn:Hstep; [done|]. clear Hnone.
  destruct fr as [pc cur upd obj]. unfold frame_step, left_the_call in *. simpl in *.
  destruct pc; simpl in Hstep; try done; auto.
  - destruct cur as [k|]; [|done]. exfalso.
    assert (owners (heap (shared c)) k ≠ 0) as Hk by auto.
    unfold owners in Hk. unfold pointee in Hstep; simpl in Hstep.
    by destruct (heap (shared c) !! k).
  - destruct (place d) as [k|]; [|done].
    case_decide; [|done]. right. split; [done|]. by exists k.
  - unfold atomic_compare_exchange_weak in Hstep.
    by destruct (negb (spuriously d) && bool_decide (objectPtr (shared c) = cur)).
Qed.

Lemma run_keeps_held ds : ∀ v0 c c' j fr,
  invariant T_default updateFunction v0 c →
  run T_default updateFunction ds c = Some c' →
  Forall (λ d, who d ≠ j) ds →
  pool c !! j = Some fr →
  pool c' !! j = Some fr ∧
  ∀ a, currentObjectPtr fr = Some a ∨ updateObjectPtr fr = Some a →
       is_Some (pointee (Some a) (heap (shared c))) ∧
       pointee (Some a) (heap (shared c')) = pointee (Some a) (heap (shared c)).
Proof.
  induction ds as [|d ds IH]; intros v0 c c' j fr Hinv Hrun Hother Hj; simpl in Hrun.
  - injection Hrun as <-. split; [done|]. intros a Ha. split; [|done].
    destruct Hinv as (Hc & _ & _).
    pose proof (counted_frame c j fr a Hc Hj Ha) as Hown.
    unfold owners in Hown. unfold pointee; simpl.
    destruct (heap (shared c) !! a); [by eexists|done].
  - destruct (exec T_default updateFunction d c) as [c1|] eqn:Hexec; [|done].
    simpl in Hrun. apply Forall_cons in Hother as [Hd Hother].
    pose proof (exec_invariant _ _ _ _ _ _ Hinv Hexec) as Hinv1.
    assert (pool c1 !! j = Some fr) as Hj1 by (by rewrite (exec_others d c c1 j)).
    destruct (IH v0 c1 c' j fr Hinv1 Hrun Hother Hj1) as [Hj' Hkeep].
    split; [done|]. intros a Ha.
    destruct (Hkeep a Ha) as [Hsome1 Heq1].
    destruct Hinv as (Hc & _ & _). destruct Hinv1 as (Hc1 & _ & _).
    assert (pointee (Some a) (heap (shared c1)) = pointee (Some a) (heap (shared c))) as Hstep.
    { apply (exec_keeps_values d c c1 Hexec); eapply counted_frame; eauto. }
    rewrite Heq1, Hstep. split; [|done]. by rewrite <- Hstep.
Qed.

(** X7 — a held snapshot stays as it is.  From the moment a caller holds a
    pointer in [currentObjectPtr] or [updateObjectPtr], whatever the other
    callers do — exchange the slot, free blocks, allocate — until it moves
    again the block it points to exists and stores the same value. *)
Theorem held_snapshot_undisturbed K m ds ds' c c' j fr a :
  at_rest m →
  run T_default updateFunction ds (spawn T_default K m) = Some c →
  run T_default updateFunction ds' c = Some c' →
  Forall (λ d, who d ≠ j) ds' →
  pool c !! j = Some fr →
  currentObjectPtr fr = Some a ∨ updateObjectPtr fr = Some a →
  pool c' !! j = Some fr ∧
  is_Some (pointee (Some a) (heap (shared c))) ∧
  pointee (Some a) (heap (shared c')) = pointee (Some a) (heap (shared c)).
Proof.
  intros Hrest Hrun Hrun' Hother Hj Ha.
  destruct (run_keeps_held ds' _ c c' j fr (reached_invariant K m ds c Hrest Hrun)
              Hrun' Hother Hj) as [Hj' Hkeep].
  split; [done|]. by apply Hkeep.
Qed.

Lemma left_holds_nothing h fr a :
  frame_sound T_default updateFunction h fr → left_the_call fr → frame_holds a fr = 0.
Proof.
  unfold frame_sound, left_the_call, frame_holds, holds.
  intros Hs [Hp|Hp]; rewrite Hp in Hs; destruct Hs as [-> ->]; done.
Qed.

Lemma sum_list_all_0 {A} (g : A → nat) (l : list A) :
  (∀ i x, l !! i = Some x → g x = 0) → sum_list (g <$> l) = 0.
Proof.
  induction l as [|x l IH]; intros Hl; simpl; [done|].
  rewrite (Hl 0 x eq_refl). simpl. apply IH. intros i y Hy. apply (Hl (S i) y Hy).
Qed.

Lemma swapped_left (pl : list (frame T)) :
  Forall left_the_call pl → sum_list (swapped <$> pl) = returned pl.
Proof.
  unfold returned.
  induction 1 as [|fr pl Hfr _ IH]; simpl; [done|].
  rewrite filter_cons. unfold swapped at 1.
  destruct (decide (at_point fr = Returned)) as [Hr|Hr].
  - rewrite Hr. simpl. by f_equal.
  - destruct Hfr as [Hfr|Hfr]; [done|]. by rewrite Hfr.
Qed.

(** X8 — nothing leaks.  Once every caller has left [update], by return or
    by [std::bad_alloc], the memory is at rest: the only block left is the
    one the slot points to, with the slot as its only owner; every
    superseded snapshot and every snapshot of a failed attempt is freed. *)
Theorem all_left_nothing_leaks K m ds c :
  at_rest m →
  run T_default updateFunction ds (spawn T_default K m) = Some c →
  Forall left_the_call (pool c) →
  at_rest (shared c) ∧
  match objectPtr (shared c) with
  | Some a => heap (shared c) = {[a := Block (visible T_default (shared c)) 1]}
  | None => heap (shared c) = ∅
  end.
Proof.
  intros Hrest Hrun Hall.
  destruct (reached_invariant K m ds c Hrest Hrun) as (Hc & Hsound & _).
  assert (at_rest (shared c)) as Hrest'.
  { intros a. rewrite (Hc a). unfold holders.
    rewrite sum_list_all_0; [lia|].
    intros i fr Hi. eapply left_holds_nothing; [by eapply Hsound|].
    rewrite Forall_lookup in Hall. by eapply Hall. }
  split; [done|].
  destruct (objectPtr (shared c)) as [a|] eqn:Hp.
  - pose proof (at_rest_alive _ Hrest') as Halive. rewrite Hp in Halive.
    destruct Halive as [b Hb].
    apply at_rest_one_block; [done|done|].
    unfold visible, pointee_or. rewrite Hp.
    by rewrite (pointee_lookup _ _ _ Hb).
  - by apply at_rest_no_block.
Qed.

(** X9 — a caller that throws adds nothing.  Once every caller has left
    [update], the slot shows the initial value with the closure applied
    once per caller that returned; the callers that were thrown out by
    [std::bad_alloc] have not changed what readers see. *)
Theorem returned_callers_count (field : T → Z) K m ds c :
  (∀ x, field (updateFunction x) = (field x + 1)%Z) →
  at_rest m →
  run T_default updateFunction ds (spawn T_default K m) = Some c →
  Forall left_the_call (pool c) →
  visible T_default (shared c)
    = Nat.iter (returned (pool c)) updateFunction (visible T_default m) ∧
  field (visible T_default (shared c))
    = (field (visible T_default m) + Z.of_nat (returned (pool c)))%Z ∧
  returned (pool c) ≤ K.
Proof.
  intros Hfield Hrest Hrun Hall.
  destruct (reached_invariant K m ds c Hrest Hrun) as (_ & _ & Hvis).
  rewrite (swapped_left _ Hall) in Hvis.
  split; [done|]. split; [rewrite Hvis; by apply iter_increments|].
  unfold returned. etrans; [apply length_filter|].
  rewrite (run_length _ _ _ _ _ Hrun). unfold spawn; simpl.
  by rewrite length_replicate.
Qed.

(** One move of a caller alone brings it one step closer to its return. *)
Lemma solo_step v0 c i fr n :
  invariant T_default updateFunction v0 c →
  pool c !! i = Some fr →
  steps_left (shared c) fr = S n →
  ∃ c' fr', exec T_default updateFunction (solo_decision i (shared c)) c = Some c' ∧
            pool c' = <[i := fr']> (pool c) ∧
            steps_left (shared c') fr' = n ∧
            at_point fr' ≠ Threw.
Proof.
  intros (Hc & _ & _) Hi Hn.
  pose proof (λ a, counted_frame c i fr a Hc Hi) as Hheld.
  unfold exec, solo_decision; simpl. rewrite Hi; simpl.
  destruct fr as [pc cur upd obj]. unfold frame_step, steps_left in *. simpl in *.
  destruct pc; simpl in *; try done.
  - eexists _, _. split; [done|]. split; [done|]. split; [simpl|done].
    rewrite decide_True by done. lia.
  - destruct cur as [k|].
    + assert (owners (heap (shared c)) k ≠ 0) as Hk by auto.
      unfold owners in Hk. unfold pointee; simpl.
      destruct (heap (shared c) !! k) as [b|]; [|done]. simpl.
      eexists _, _. split; [done|]. split; [done|]. split; [simpl|done]. lia.
    + eexists _, _. split; [done|]. split; [done|]. split; [simpl|done]. lia.
  - rewrite decide_False by apply is_fresh.
    eexists _, _. split; [done|]. split; [done|]. split; [simpl|done]. lia.
  - unfold atomic_compare_exchange_weak. simpl.
    destruct (decide (objectPtr (shared c) = cur)) as [Hsame|Hstale].
    + rewrite bool_decide_eq_true_2 by done.
      eexists _, _. split; [done|]. split; [done|]. split; [simpl|done]. lia.
    + rewrite bool_decide_eq_false_2 by done.
      eexists _, _. split; [done|]. split; [done|]. split; [simpl|done].
      rewrite decide_True by done. lia.
  - eexists _, _. split; [done|]. split; [done|]. split; [simpl|done]. lia.
Qed.

Lemma solo_run v0 i n : ∀ c fr,
  invariant T_default updateFunction v0 c →
  pool c !! i = Some fr →
  steps_left (shared c) fr = n →
  ∃ c' fr', run T_default updateFunction (solo T_default updateFunction i n c) c = Some c' ∧
            pool c' = <[i := fr']> (pool c) ∧
            steps_left (shared c') fr' = 0 ∧
            (at_point fr ≠ Threw → at_point fr' ≠ Threw).
Proof.
  induction n as [|n IH]; intros c fr Hinv Hi Hn.
  - exists c, fr. split; [done|]. split; [by rewrite list_insert_id|done].
  - destruct (solo_step v0 c i fr n Hinv Hi Hn) as (c1 & fr1 & Hexec & Hpool & Hn1 & Hnt).
    assert (pool c1 !! i = Some fr1) as Hi1.
    { rewrite Hpool. apply list_lookup_insert_eq. by eapply lookup_lt_Some. }
    destruct (IH c1 fr1 (exec_invariant _ _ _ _ _ _ Hinv Hexec) Hi1 Hn1)
      as (c' & fr' & Hrun & Hpool' & Hn' & Hnt').
    exists c', fr'. simpl. rewrite Hexec. simpl.
    split; [done|]. split; [by rewrite Hpool', Hpool, list_insert_insert_eq|].
    split; [done|auto].
Qed.

(** X10 — a caller left alone retries at most once.  Counted in the calls
    the caller makes, each atomic call on the slot taken as one indivisible
    step as in the interleavings above: from every configuration an
    interleaving reaches, a caller still in [update] that is then the only
    one to move, without spurious failure and with room to allocate, returns
    after at most seven steps.  It needs at most five, so no exchange of its
    own fails, when it has not loaded the pointer yet or its
    [currentObjectPtr] is what the slot holds; otherwise its exchange fails
    once, which brings [currentObjectPtr] up to date, and the next one
    succeeds.  The frames of the other callers are as they were.  This
    bounds the iterations of the loop; whether a call into the library can
    itself be held up is a matter of the library. *)
Theorem alone_caller_retries_once K m ds c i fr :
  at_rest m →
  run T_default updateFunction ds (spawn T_default K m) = Some c →
  pool c !! i = Some fr →
  at_point fr ≠ Threw →
  let alone_i := solo T_default updateFunction i (steps_left (shared c) fr) c in
  length alone_i ≤ 7 ∧
  (at_point fr = AtLoad ∨ objectPtr (shared c) = currentObjectPtr fr →
   length alone_i ≤ 5) ∧
  Forall (λ d, who d = i ∧ spuriously d = false) alone_i ∧
  ∃ c' fr', run T_default updateFunction alone_i c = Some c' ∧
            pool c' !! i = Some fr' ∧ at_point fr' = Returned ∧
            ∀ j, j ≠ i → pool c' !! j = pool c !! j.
Proof.
  intros Hrest Hrun Hi Hthrew. cbv zeta.
  pose proof (reached_invariant K m ds c Hrest Hrun) as Hinv.
  assert (∀ n c0, length (solo T_default updateFunction i n c0) ≤ n ∧
                  Forall (λ d, who d = i ∧ spuriously d = false)
                         (solo T_default updateFunction i n c0)) as Hsolo.
  { induction n as [|n IHn]; intros c0; simpl; [by split|].
    destruct (exec _ _ _ c0) as [c1|].
    - destruct (IHn c1) as [Hlen Hall]. split; [lia|]. by constructor.
    - split; [simpl; lia|]. by repeat constructor. }
  destruct (Hsolo (steps_left (shared c) fr) c) as [Hlen Hall].
  assert (steps_left (shared c) fr ≤ 7) as Hmax.
  { unfold steps_left. destruct (at_point fr); try case_decide; lia. }
  split; [lia|]. split.
  { intros Hfresh. etrans; [exact Hlen|]. unfold steps_left.
    destruct Hfresh as [->|Hsame]; [done|].
    rewrite decide_True by done. destruct (at_point fr); lia. }
  split; [done|].
  destruct (solo_run _ i _ c fr Hinv Hi eq_refl)
    as (c' & fr' & Hrun' & Hpool & Hzero & Hnt).
  exists c', fr'. split; [done|].
  split; [rewrite Hpool; apply list_lookup_insert_eq; by eapply lookup_lt_Some|].
  split; [|intros j Hj; rewrite Hpool; by apply list_lookup_insert_ne].
  specialize (Hnt Hthrew). unfold steps_left in Hzero.
  destruct (at_point fr'); try done; try case_decide; lia.
Qed.
End Callers.

(** ** Writers and readers together: the invariant *)

Section BlockValues.
Context {T : Type}.
Implicit Types (h : gmap addr (block T)) (p : shared_ptr) (a : addr).

Lemma lookup_acquire_stored p h a b :
  acquire p h !! a = Some b → ∃ b0, h !! a = Some b0 ∧ stored b0 = stored b.
Proof.
  rewrite lookup_acquire. case_decide; [|by eexists].
  intros Hb. destruct (h !! a) as [b0|]; simplify_eq/=. by eexists.
Qed.

Lemma lookup_release_stored p h a b :
  release p h !! a = Some b → ∃ b0, h !! a = Some b0 ∧ stored b0 = stored b.
Proof.
  rewrite lookup_release. case_decide; [|by eexists].
  intros Hb. destruct (h !! a) as [b0|]; simplify_eq/=. unfold unshare in Hb.
  case_decide; simplify_eq/=. by eexists.
Qed.

Lemma pointee_stored p h x :
  pointee p h = Some x → ∃ a b, h !! a = Some b ∧ stored b = x.
Proof.
  destruct p as [a|]; [|done]. unfold pointee; simpl.
  destruct (h !! a) as [b|] eqn:Hb; intros; simplify_eq/=. by exists a, b.
Qed.
End BlockValues.

Section TogetherFacts.
Context {T : Type}.
Variable T_default : T.
Implicit Types (c : crowd T) (j : job T) (m : Mem T) (ks : list (request T)).

Lemma crowd_holders_step a c i j j' m' :
  jobs c !! i = Some j →
  crowd_holders a (Crowd m' (<[i := j']> (jobs c))) + job_holds a j
  = holds a (objectPtr m') + sum_list (job_holds a <$> jobs c) + job_holds a j'.
Proof.
  intros Hi. unfold crowd_holders; simpl.
  pose proof (sum_list_insert (job_holds a) (jobs c) i j j' Hi). lia.
Qed.

Lemma crowd_counted_slot c a :
  crowd_counted c → objectPtr (crowd_mem c) = Some a →
  owners (heap (crowd_mem c)) a ≠ 0.
Proof.
  intros Hc Hs. rewrite (Hc a). unfold crowd_holders, holds. rewrite Hs.
  case_decide; [lia|done].
Qed.

Lemma crowd_counted_job c i j a :
  crowd_counted c → jobs c !! i = Some j →
  job_current j = Some a ∨ job_fresh j = Some a →
  owners (heap (crowd_mem c)) a ≠ 0.
Proof.
  intros Hc Hi Hp. rewrite (Hc a). unfold crowd_holders.
  pose proof (sum_list_lookup_le (job_holds a) (jobs c) i j Hi) as Hle.
  assert (1 ≤ job_holds a j); [|lia].
  unfold job_holds, holds. destruct Hp as [-> | ->]; repeat case_decide; try done; lia.
Qed.

Lemma crowd_invariant_step v0 ks c i j j' m' :
  crowd_invariant T_default v0 ks c →
  jobs c !! i = Some j →
  crowd_counted (Crowd m' (<[i := j']> (jobs c))) →
  job_sound T_default v0 ks j' →
  (∀ a b, heap m' !! a = Some b → produced T_default v0 ks (stored b)) →
  crowd_invariant T_default v0 ks (Crowd m' (<[i := j']> (jobs c))).
Proof.
  intros (Hc & Hsound & Hheap) Hi Hc' Hj' Hheap'.
  split; [done|]. split; [|done]. simpl.
  intros i0 j0 Hj0. destruct (decide (i = i0)) as [<-|Hne].
  - rewrite list_lookup_insert_eq in Hj0 by (by eapply lookup_lt_Some).
    by simplify_eq.
  - rewrite list_lookup_insert_ne in Hj0 by done. by eapply Hsound.
Qed.

Ltac crowd_count Hc Hle Hi :=
  match goal with
  | |- crowd_counted (Crowd ?m' (<[_ := ?j']> (jobs ?c))) =>
      let a := fresh "a" in
      intros a; specialize (Hc a); specialize (Hle a);
      pose proof (crowd_holders_step a c _ _ j' m' Hi);
      simpl in *; rewrite ?owners_release, ?owners_acquire, ?owners_insert;
      unfold crowd_holders, job_holds, holds in *; simpl in *;
      repeat case_decide; simplify_eq; try lia
  end.

Ltac heap_produced :=
  let a := fresh "a" in
  let b := fresh "b" in
  let Hab := fresh "Hab" in
  intros a b Hab; simpl in Hab;
  repeat first
    [ apply lookup_release_stored in Hab as (? & Hab & <-)
    | apply lookup_acquire_stored in Hab as (? & Hab & <-)
    | rewrite lookup_insert in Hab;
      match type of Hab with
      | context [decide (?k = ?k')] => destruct (decide (k = k')); simplify_eq/=
      end ];
  eauto using produced.

Lemma crowd_exec_invariant v0 ks d c c' :
  crowd_invariant T_default v0 ks c →
  crowd_exec T_default d c = Some c' →
  crowd_invariant T_default v0 ks c'.
Proof.
  intros Hinv Hexec. unfold crowd_exec in Hexec.
  destruct (jobs c !! who d) as [j|] eqn:Hi; simpl in Hexec; [|done].
  destruct (job_step T_default d j (crowd_mem c)) as [[j' m']|] eqn:Hstep;
    simpl in Hexec; [|done].
  injection Hexec as <-.
  pose proof Hinv as (Hc & Hsound & Hheap).
  destruct (Hsound _ _ Hi) as [Hks Hj].
  pose proof (λ a, sum_list_lookup_le (job_holds a) (jobs c) _ j Hi) as Hle.
  pose proof (λ a, crowd_counted_job c _ j a Hc Hi) as Hheld.
  destruct j as [k st cur upd obj]. unfold job_step in Hstep. simpl in *.
  destruct k as [v| | |f], st; simpl in *; try done.
  - (* store: make_shared *)
    destruct Hj as (-> & -> & _).
    destruct (place d) as [a0|].
    + case_decide as Ha0; simplify_eq.
      apply not_elem_of_dom, owners_0 in Ha0.
      apply (crowd_invariant_step _ _ _ _ _ _ _ Hinv Hi).
      * crowd_count Hc Hle Hi.
      * split; [done|]. simpl. split; [done|by eexists].
      * heap_produced.
    + simplify_eq.
      apply (crowd_invariant_step _ _ _ _ _ _ _ Hinv Hi).
      * crowd_count Hc Hle Hi.
      * by split.
      * heap_produced.
  - (* store: atomic_store *)
    destruct Hj as (-> & a0 & ->). simplify_eq. unfold atomic_store.
    apply (crowd_invariant_step _ _ _ _ _ _ _ Hinv Hi).
    + crowd_count Hc Hle Hi.
    + by split.
    + heap_produced.
  - (* reset *)
    destruct Hj as (-> & -> & _). simplify_eq. unfold atomic_store.
    apply (crowd_invariant_step _ _ _ _ _ _ _ Hinv Hi).
    + crowd_count Hc Hle Hi.
    + by split.
    + heap_produced.
  - (* load: atomic_load *)
    destruct Hj as (-> & -> & _). simplify_eq.
    apply (crowd_invariant_step _ _ _ _ _ _ _ Hinv Hi).
    + crowd_count Hc Hle Hi.
    + by split.
    + heap_produced.
  - (* load: the copy *)
    subst upd.
    assert (∃ x, produced T_default v0 ks x ∧
                 j' = Job Load Leaving cur None x ∧ m' = crowd_mem c)
      as (x & Hx & -> & ->).
    { destruct cur as [a0|]; simplify_eq/=.
      - destruct (pointee (Some a0) (heap (crowd_mem c))) as [x|] eqn:Hp; simplify_eq/=.
        exists x. split; [|done].
        destruct (pointee_stored _ _ _ Hp) as (a1 & b1 & Hb1 & <-). by eapply Hheap.
      - exists T_default. split; [constructor|done]. }
    apply (crowd_invariant_step _ _ _ _ _ _ _ Hinv Hi).
    + crowd_count Hc Hle Hi.
    + by split.
    + heap_produced.
  - (* load: the destructor *)
    destruct Hj as [-> Hobj]. simplify_eq.
    apply (crowd_invariant_step _ _ _ _ _ _ _ Hinv Hi).
    + crowd_count Hc Hle Hi.
    + split; [done|]. simpl. by repeat split.
    + heap_produced.
  - (* update: atomic_load *)
    destruct Hj as (-> & -> & _). simplify_eq.
    apply (crowd_invariant_step _ _ _ _ _ _ _ Hinv Hi).
    + crowd_count Hc Hle Hi.
    + by split.
    + heap_produced.
  - (* update: the copy and the call *)
    assert (∃ x, produced T_default v0 ks x ∧
                 j' = Job (Update f) Making cur upd (f x) ∧ m' = crowd_mem c)
      as (x & Hx & -> & ->).
    { destruct cur as [a0|]; simplify_eq/=.
      - destruct (pointee (Some a0) (heap (crowd_mem c))) as [x|] eqn:Hp; simplify_eq/=.
        exists x. split; [|done].
        destruct (pointee_stored _ _ _ Hp) as (a1 & b1 & Hb1 & <-). by eapply Hheap.
      - exists T_default. split; [constructor|done]. }
    apply (crowd_invariant_step _ _ _ _ _ _ _ Hinv Hi).
    + crowd_count Hc Hle Hi.
    + split; [done|]. simpl. by apply produced_by_update.
    + heap_produced.
  - (* update: make_shared *)
    destruct (place d) as [a0|].
    + case_decide as Ha0; simplify_eq.
      apply not_elem_of_dom, owners_0 in Ha0.
      apply (crowd_invariant_step _ _ _ _ _ _ _ Hinv Hi).
      * crowd_count Hc Hle Hi.
      * split; [done|]. simpl. by eexists.
      * heap_produced.
    + simplify_eq.
      apply (crowd_invariant_step _ _ _ _ _ _ _ Hinv Hi).
      * crowd_count Hc Hle Hi.
      * by split.
      * heap_produced.
  - (* update: atomic_compare_exchange_weak *)
    destruct Hj as [a0 ->].
    unfold atomic_compare_exchange_weak in Hstep.
    destruct (negb (spuriously d) && bool_decide (objectPtr (crowd_mem c) = cur));
      simplify_eq.
    + apply (crowd_invariant_step _ _ _ _ _ _ _ Hinv Hi).
      * crowd_count Hc Hle Hi.
      * by split.
      * heap_produced.
    + apply (crowd_invariant_step _ _ _ _ _ _ _ Hinv Hi).
      * crowd_count Hc Hle Hi.
      * by split.
      * heap_produced.
  - (* update: the destructors *)
    simplify_eq.
    apply (crowd_invariant_step _ _ _ _ _ _ _ Hinv Hi).
    + crowd_count Hc Hle Hi.
    + by split.
    + heap_produced.
Qed.

Lemma crowd_run_invariant v0 ks ds : ∀ c c',
  crowd_invariant T_default v0 ks c →
  crowd_run T_default ds c = Some c' →
  crowd_invariant T_default v0 ks c'.
Proof.
  induction ds as [|d ds IH]; intros c c' Hinv Hrun; simpl in Hrun.
  - by simplify_eq.
  - destruct (crowd_exec T_default d c) as [c1|] eqn:Hexec; [|done].
    simpl in Hrun. eapply IH; [|done]. by eapply crowd_exec_invariant.
Qed.

Lemma gather_invariant ks m :
  at_rest m →
  crowd_invariant T_default (visible T_default m) ks (gather T_default ks m).
Proof.
  intros Hrest. split; [|split]; simpl.
  - intros a. unfold crowd_holders; simpl.
    rewrite sum_list_all_0; [rewrite (Hrest a); lia|].
    intros i j Hj. rewrite list_lookup_fmap in Hj.
    destruct (ks !! i); simplify_eq/=. done.
  - intros i j Hj. rewrite list_lookup_fmap in Hj.
    destruct (ks !! i) as [k|] eqn:Hk; simplify_eq/=.
    split; [by eapply list_elem_of_lookup_2|]. simpl. by destruct k.
  - intros a b Hb.
    assert (stored b = visible T_default m) as ->; [|constructor].
    pose proof (Hrest a) as Ha. unfold owners, holds in Ha. rewrite Hb in Ha.
    case_decide as Hp; [|lia].
    unfold visible, pointee_or. rewrite Hp.
    by rewrite (pointee_lookup _ _ _ Hb).
Qed.

Lemma crowd_reached ks m ds c :
  at_rest m →
  crowd_run T_default ds (gather T_default ks m) = Some c →
  crowd_invariant T_default (visible T_default m) ks c.
Proof.
  intros Hrest Hrun.
  exact (crowd_run_invariant _ _ _ _ _ (gather_invariant ks m Hrest) Hrun).
Qed.

(** X11 — readers and writers never touch a freed snapshot.  With any
    number of callers of [store], [reset], [load] and [update] interleaved,
    a job has no step to make only when it is over or the allocator offers
    an address that is in use: the pointer a reader or an [update] copied
    from the slot always finds its block, however often the slot has been
    replaced or emptied since. *)
Theorem crowd_never_stuck ks m ds c d j :
  at_rest m →
  crowd_run T_default ds (gather T_default ks m) = Some c →
  jobs c !! who d = Some j →
  crowd_exec T_default d c = None →
  over j ∨ ∃ a, place d = Some a ∧ a ∈ dom (heap (crowd_mem c)).
Proof.
  intros Hrest Hrun Hi Hnone.
  destruct (crowd_reached ks m ds c Hrest Hrun) as (Hc & Hsound & _).
  destruct (Hsound _ _ Hi) as [_ Hj].
  pose proof (λ a, crowd_counted_job c (who d) j a Hc Hi) as Hheld.
  unfold crowd_exec in Hnone. rewrite Hi in Hnone. simpl in Hnone.
  destruct (job_step T_default d j (crowd_mem c)) as [[j' m']|] eqn:Hstep; [done|].
  clear Hnone.
  assert (∀ a0, job_current j = Some a0 →
                is_Some (pointee (Some a0) (heap (crowd_mem c)))) as Halive.
  { intros a0 Ha0. assert (owners (heap (crowd_mem c)) a0 ≠ 0) as Hown by auto.
    unfold owners in Hown. unfold pointee; simpl.
    destruct (heap (crowd_mem c) !! a0); [by eexists|done]. }
  destruct j as [k st cur upd obj]. unfold job_step, over in *. simpl in *.
  destruct k as [v| | |f], st; simpl in *; try done; auto.
  - destruct (place d) as [a0|]; [|done]. case_decide; [|done]. right. by exists a0.
  - destruct cur as [a0|]; [|done]. destruct (Halive a0 eq_refl) as [x Hx].
    by rewrite Hx in Hstep.
  - destruct cur as [a0|]; [|done]. destruct (Halive a0 eq_refl) as [x Hx].
    by rewrite Hx in Hstep.
  - destruct (place d) as [a0|]; [|done]. case_decide; [|done]. right. by exists a0.
  - unfold atomic_compare_exchange_weak in Hstep.
    by destruct (negb (spuriously d) && bool_decide (objectPtr (crowd_mem c) = cur)).
Qed.

(** X12 — what a reader gets.  Whatever the interleaving of writers and
    readers, the value a finished [load()] returns is the one the slot
    showed at the start, or [T()], or a value some caller stores, or what
    the closures of callers of [update] make of such a value: a whole
    value that was put there, never anything else. *)
Theorem load_returns_what_was_put ks m ds c i j :
  at_rest m →
  crowd_run T_default ds (gather T_default ks m) = Some c →
  jobs c !! i = Some j → doing j = Load → stage_of j = Left →
  produced T_default (visible T_default m) ks (job_object j).
Proof.
  intros Hrest Hrun Hi Hload Hleft.
  destruct (crowd_reached ks m ds c Hrest Hrun) as (_ & Hsound & _).
  destruct (Hsound _ _ Hi) as [_ Hj].
  destruct j as [k st cur upd obj]. simpl in *. subst k st. simpl in Hj.
  destruct Hj as (_ & _ & Hobj). by apply Hobj.
Qed.

(** X13 — nothing leaks with writers and readers.  Once every job is over,
    the memory is at rest: the heap holds the block the slot points to,
    owned by the slot alone, and nothing else; after a last [reset] it
    holds nothing. *)
Theorem crowd_over_nothing_leaks ks m ds c :
  at_rest m →
  crowd_run T_default ds (gather T_default ks m) = Some c →
  Forall over (jobs c) →
  at_rest (crowd_mem c) ∧
  match objectPtr (crowd_mem c) with
  | Some a => ∃ x, heap (crowd_mem c) = {[a := Block x 1]} ∧
                   produced T_default (visible T_default m) ks x
  | None => heap (crowd_mem c) = ∅
  end.
Proof.
  intros Hrest Hrun Hall.
  destruct (crowd_reached ks m ds c Hrest Hrun) as (Hc & Hsound & Hheap).
  assert (at_rest (crowd_mem c)) as Hrest'.
  { intros a. rewrite (Hc a). unfold crowd_holders.
    rewrite sum_list_all_0; [lia|].
    intros i j Hi. destruct (Hsound _ _ Hi) as [_ Hj].
    rewrite Forall_lookup in Hall. specialize (Hall _ _ Hi).
    unfold job_holds, holds.
    destruct j as [k st cur upd obj]. unfold over in Hall. simpl in *.
    destruct Hall as [-> | ->]; destruct k; simpl in Hj;
      destruct Hj as (-> & -> & _); done. }
  split; [done|].
  destruct (objectPtr (crowd_mem c)) as [a|] eqn:Hp.
  - pose proof (at_rest_alive _ Hrest') as Halive. rewrite Hp in Halive.
    destruct Halive as [b Hb]. exists (stored b). split; [|by eapply Hheap].
    apply at_rest_one_block; [done|done|]. by apply pointee_lookup.
  - by apply at_rest_no_block.
Qed.

(** A block that has owners before and after a step stores what it did. *)
Lemma crowd_exec_keeps_values d c c' :
  crowd_exec T_default d c = Some c' →
  ∀ a, owners (heap (crowd_mem c)) a ≠ 0 → owners (heap (crowd_mem c')) a ≠ 0 →
       pointee (Some a) (heap (crowd_mem c')) = pointee (Some a) (heap (crowd_mem c)).
Proof.
  intros Hexec. unfold crowd_exec in Hexec.
  destruct (jobs c !! who d) as [j|] eqn:Hi; simpl in Hexec; [|done].
  destruct (job_step T_default d j (crowd_mem c)) as [[j' m']|] eqn:Hstep;
    simpl in Hexec; [|done].
  injection Hexec as <-. simpl.
  destruct j as [k st cur upd obj]. unfold job_step in Hstep. simpl in Hstep.
  intros a Ha Ha'.
  assert (∀ p (h : gmap addr (block T)), owners (release p h) a ≠ 0 →
                 pointee (Some a) (release p h) = pointee (Some a) h) as Hrel.
  { intros p h Hp. by rewrite pointee_release, decide_False. }
  assert (∀ p q (h : gmap addr (block T)), owners (release p (release q h)) a ≠ 0 →
                   pointee (Some a) (release p (release q h)) = pointee (Some a) h) as Hrel2.
  { intros p q h Hp. rewrite Hrel by done. apply Hrel.
    rewrite owners_release in Hp. lia. }
  assert (∀ k0 x, owners (heap (crowd_mem c)) k0 = 0 →
                  pointee (Some a) (<[k0 := Block x 1]> (heap (crowd_mem c)))
                  = pointee (Some a) (heap (crowd_mem c))) as Hins.
  { intros k0 x Hk0. rewrite pointee_insert, decide_False; [done|]. by intros <-. }
  destruct k as [v| | |f], st; simpl in Hstep; try done.
  - destruct (place d) as [k0|]; [|by simplify_eq].
    case_decide as Hk; simplify_eq. simpl in *.
    apply Hins. by apply owners_0, not_elem_of_dom.
  - simplify_eq. unfold atomic_store in *. simpl in *. by apply Hrel.
  - simplify_eq. unfold atomic_store in *. simpl in *. by apply Hrel.
  - simplify_eq. simpl in *. by rewrite pointee_acquire.
  - destruct cur as [k0|]; simplify_eq/=; [|done].
    by destruct (pointee (Some k0) (heap (crowd_mem c))); simplify_eq/=.
  - simplify_eq. simpl in *. by apply Hrel.
  - simplify_eq. simpl in *. by rewrite pointee_acquire.
  - destruct cur as [k0|]; simplify_eq/=; [|done].
    by destruct (pointee (Some k0) (heap (crowd_mem c))); simplify_eq/=.
  - destruct (place d) as [k0|].
    + case_decide as Hk; simplify_eq. simpl in *.
      rewrite Hrel by done. apply Hins. by apply owners_0, not_elem_of_dom.
    + simplify_eq. simpl in *. by apply Hrel2.
  - unfold atomic_compare_exchange_weak in Hstep.
    destruct (negb (spuriously d) && bool_decide (objectPtr (crowd_mem c) = cur));
      simplify_eq; simpl in *.
    + rewrite Hrel by done. by rewrite pointee_acquire.
    + rewrite Hrel by done. by rewrite pointee_acquire.
  - simplify_eq. simpl in *. by apply Hrel2.
Qed.

Lemma crowd_exec_others d c c' i :
  crowd_exec T_default d c = Some c' → who d ≠ i →
  jobs c' !! i = jobs c !! i.
Proof.
  unfold crowd_exec. intros Hexec Hi.
  destruct (jobs c !! who d) as [j|]; simpl in Hexec; [|done].
  destruct (job_step _ _ _ _) as [[j' m']|]; simplify_eq/=.
  by rewrite list_lookup_insert_ne.
Qed.

Lemma crowd_run_keeps_held ds : ∀ v0 ks c c' i j,
  crowd_invariant T_default v0 ks c →
  crowd_run T_default ds c = Some c' →
  Forall (λ d, who d ≠ i) ds →
  jobs c !! i = Some j →
  jobs c' !! i = Some j ∧
  ∀ a, job_current j = Some a ∨ job_fresh j = Some a →
       is_Some (pointee (Some a) (heap (crowd_mem c))) ∧
       pointee (Some a) (heap (crowd_mem c')) = pointee (Some a) (heap (crowd_mem c)).
Proof.
  induction ds as [|d ds IH]; intros v0 ks c c' i j Hinv Hrun Hother Hi; simpl in Hrun.
  - injection Hrun as <-. split; [done|]. intros a Ha. split; [|done].
    destruct Hinv as (Hc & _ & _).
    pose proof (crowd_counted_job c i j a Hc Hi Ha) as Hown.
    unfold owners in Hown. unfold pointee; simpl.
    destruct (heap (crowd_mem c) !! a); [by eexists|done].
  - destruct (crowd_exec T_default d c) as [c1|] eqn:Hexec; [|done].
    simpl in Hrun. apply Forall_cons in Hother as [Hd Hother].
    pose proof (crowd_exec_invariant _ _ _ _ _ Hinv Hexec) as Hinv1.
    assert (jobs c1 !! i = Some j) as Hi1 by (by rewrite (crowd_exec_others d c c1 i)).
    destruct (IH v0 ks c1 c' i j Hinv1 Hrun Hother Hi1) as [Hi' Hkeep].
    split; [done|]. intros a Ha.
    destruct (Hkeep a Ha) as [Hsome1 Heq1].
    destruct Hinv as (Hc & _ & _). destruct Hinv1 as (Hc1 & _ & _).
    assert (pointee (Some a) (heap (crowd_mem c1))
            = pointee (Some a) (heap (crowd_mem c))) as Hstep.
    { apply (crowd_exec_keeps_values d c c1 Hexec); eapply crowd_counted_job; eauto. }
    rewrite Heq1, Hstep. split; [|done]. by rewrite <- Hstep.
Qed.

(** X14 — a [load] returns what the slot showed at its [atomic_load].  A
    caller of [load] reads the pointer; then the others run, storing,
    resetting, updating, freeing; then the caller copies.  The value it
    ends up with is the one the slot showed at the instant of its
    [atomic_load] ([T()] if the slot was empty then), whatever has been
    published or freed in between. *)
Theorem load_is_atomic ks m ds c d c1 ds' c2 d' c3 j :
  at_rest m →
  crowd_run T_default ds (gather T_default ks m) = Some c →
  jobs c !! who d = Some j → doing j = Load → stage_of j = Entering →
  crowd_exec T_default d c = Some c1 →
  Forall (λ o, who o ≠ who d) ds' →
  crowd_run T_default ds' c1 = Some c2 →
  who d' = who d →
  crowd_exec T_default d' c2 = Some c3 →
  ∃ j3, jobs c3 !! who d = Some j3 ∧ stage_of j3 = Leaving ∧
        job_object j3 = visible T_default (crowd_mem c).
Proof.
  intros Hrest Hrun Hi Hload Hentering Hexec Hother Hrun' Hwho Hexec'.
  pose proof (crowd_reached ks m ds c Hrest Hrun) as Hinv.
  pose proof (crowd_exec_invariant _ _ _ _ _ Hinv Hexec) as Hinv1.
  (* the step of [atomic_load] *)
  assert (jobs c1 !! who d
          = Some (Job Load Copying (objectPtr (crowd_mem c)) None (job_object j)) ∧
          pointee (objectPtr (crowd_mem c)) (heap (crowd_mem c1))
          = pointee (objectPtr (crowd_mem c)) (heap (crowd_mem c))) as [Hi1 Hsame].
  { unfold crowd_exec in Hexec. rewrite Hi in Hexec. simpl in Hexec.
    destruct j as [k st cur upd obj]. simpl in *. subst k st.
    unfold job_step in Hexec. simpl in Hexec. simplify_eq/=.
    split; [apply list_lookup_insert_eq; by eapply lookup_lt_Some|].
    apply pointee_acquire. }
  destruct (crowd_run_keeps_held ds' _ _ c1 c2 (who d) _ Hinv1 Hrun' Hother Hi1)
    as [Hi2 Hkeep].
  simpl in Hkeep.
  unfold crowd_exec in Hexec'. rewrite Hwho, Hi2 in Hexec'. simpl in Hexec'.
  unfold job_step in Hexec'. simpl in Hexec'.
  unfold visible, pointee_or.
  destruct (objectPtr (crowd_mem c)) as [a|] eqn:Hp.
  - destruct (Hkeep a (or_introl eq_refl)) as [[x Hx] Heq].
    rewrite Heq, Hx in Hexec'. simpl in Hexec'. simplify_eq/=.
    eexists. split; [apply list_lookup_insert_eq; by eapply lookup_lt_Some|].
    split; [done|]. simpl. by rewrite <- Hsame, Hx.
  - simplify_eq/=.
    eexists. split; [apply list_lookup_insert_eq; by eapply lookup_lt_Some|].
    by split.
Qed.

(** X16 — a [store] publishes its value whole.  A caller of [store(v)]
    allocates its snapshot; then the others run; then the caller makes its
    [atomic_store].  At that instant the slot shows [v], and the caller is
    done, whatever the others stored, freed or allocated in between. *)
Theorem store_is_atomic ks m ds c d c1 ds' c2 d' c3 j v a :
  at_rest m →
  crowd_run T_default ds (gather T_default ks m) = Some c →
  jobs c !! who d = Some j → doing j = Store v → stage_of j = Entering →
  place d = Some a →
  crowd_exec T_default d c = Some c1 →
  Forall (λ o, who o ≠ who d) ds' →
  crowd_run T_default ds' c1 = Some c2 →
  who d' = who d →
  crowd_exec T_default d' c2 = Some c3 →
  visible T_default (crowd_mem c3) = v ∧
  ∃ j3, jobs c3 !! who d = Some j3 ∧ stage_of j3 = Left.
Proof.
  intros Hrest Hrun Hi Hstore Hentering Hplace Hexec Hother Hrun' Hwho Hexec'.
  pose proof (crowd_reached ks m ds c Hrest Hrun) as Hinv.
  pose proof (crowd_exec_invariant _ _ _ _ _ Hinv Hexec) as Hinv1.
  pose proof (crowd_run_invariant _ _ _ _ _ Hinv1 Hrun') as Hinv2.
  pose proof (crowd_exec_invariant _ _ _ _ _ Hinv2 Hexec') as (Hc3 & _ & _).
  assert (jobs c1 !! who d = Some (Job (Store v) Publishing None (Some a) (job_object j)) ∧
          pointee (Some a) (heap (crowd_mem c1)) = Some v) as [Hi1 Hv1].
  { unfold crowd_exec in Hexec. rewrite Hi in Hexec. simpl in Hexec.
    destruct j as [k st cur upd obj]. simpl in *. subst k st.
    unfold job_step in Hexec. simpl in Hexec. rewrite Hplace in Hexec.
    case_decide; simplify_eq/=.
    split; [apply list_lookup_insert_eq; by eapply lookup_lt_Some|].
    by rewrite pointee_insert, decide_True. }
  destruct (crowd_run_keeps_held ds' _ _ c1 c2 (who d) _ Hinv1 Hrun' Hother Hi1)
    as [Hi2 Hkeep].
  destruct (Hkeep a (or_intror eq_refl)) as [_ Hv2]. rewrite Hv1 in Hv2.
  pose proof (crowd_exec_keeps_values d' c2 c3 Hexec' a) as Hv3.
  destruct Hinv2 as (Hc2 & _ & _).
  pose proof (crowd_counted_job c2 (who d) _ a Hc2 Hi2 (or_intror eq_refl)) as Hown2.
  unfold crowd_exec in Hexec'. rewrite Hwho, Hi2 in Hexec'. simpl in Hexec'.
  unfold job_step in Hexec'. simpl in Hexec'. simplify_eq/=.
  split.
  - unfold visible, pointee_or. simpl.
    rewrite Hv3; [by rewrite Hv2|done|].
    by apply (crowd_counted_slot _ a Hc3).
  - eexists. split; [apply list_lookup_insert_eq; by eapply lookup_lt_Some|done].
Qed.
End TogetherFacts.

(** X17 — the two overloads of [update] are one loop.  The [void] overload
    does, in every world and whatever the spurious failures and allocation
    failures, what the value-returning overload does with a closure that
    returns nothing: the same outcome (return, [bad_alloc] or still in the
    loop), the same memory, the same effects of the closure, and after it
    [load()] returns the same. *)
Theorem update_overloads_agree {T E} (T_default : T) (alloc : Allocator) rounds
    (g : T → E → T * E) (w : World (T:=T) (E:=E)) :
  update_void T_default alloc rounds g w =
  update T_default alloc rounds (returning_unit g) w ∧
  bind (update_void T_default alloc rounds g) (λ _, load T_default) w =
  bind (update T_default alloc rounds (returning_unit g)) (λ _, load T_default) w.
Proof.
  split; [apply update_void_unit|].
  unfold bind. rewrite update_void_unit. reflexivity.
Qed.

(** * The further facts on the sample scenes *)

Lemma at_rest_at_1 (s : Sample.Stats) : at_rest (Sample.mem_at_1 s).
Proof.
  intros a. unfold owners, holds, Sample.mem_at_1; simpl.
  rewrite lookup_singleton. repeat case_decide; simplify_eq; done.
Qed.

Lemma wf_holding_at_1 (s : Sample.Stats) : wf (Sample.holding_at_1 s).
Proof. eexists. reflexivity. Qed.

Lemma wf_holding_at_1_shaky (s : Sample.Stats) : wf (Sample.holding_at_1_shaky s).
Proof. eexists. reflexivity. Qed.

Lemma writers_free_superseded_witness :
  settled (Sample.holding_at_1 (Sample.mkStats 1 2)) ∧
  store (Sample.bounded 4) (Sample.mkStats 5 6) (Sample.holding_at_1 (Sample.mkStats 1 2))
    = Returns tt (mkWorld (mkMem {[2%positive := Block (Sample.mkStats 5 6) 1]}
                                 (Some 2%positive)) 0 []) ∧
  reset (Sample.holding_at_1 (Sample.mkStats 1 2))
    = Returns tt (mkWorld (mkMem ∅ None) 0 []).
Proof.
  split; [apply at_rest_at_1|].
  destruct (writers_free_superseded Sample.Stats_default (Sample.bounded 4)
              (Sample.holding_at_1 (Sample.mkStats 1 2)) (Sample.mkStats 5 6)
              (at_rest_at_1 _)) as (Hs & _ & _ & Hr & _).
  split; [rewrite Hs; vm_compute; reflexivity | exact Hr].
Defined.

Lemma update_frees_attempts_witness :
  settled (Sample.holding_at_1_shaky (Sample.mkStats 1 2)) ∧
  ∃ u w', update Sample.Stats_default Sample.unbounded 2 (Sample.add_sample 3)
            (Sample.holding_at_1_shaky (Sample.mkStats 1 2)) = Returns u w' ∧
          ∃ a e, mem w' = mkMem {[a := Block (Sample.mkStats 2 5) 1]} (Some a) ∧
                 u = snd (fst (Sample.add_sample 3 (Sample.mkStats 1 2) e)).
Proof.
  split; [apply at_rest_at_1|].
  destruct (update_frees_attempts Sample.Stats_default Sample.unbounded 2
              (Sample.add_sample 3) Sample.count_up
              (Sample.holding_at_1_shaky (Sample.mkStats 1 2))
              (at_rest_at_1 _)) as [Hfree _].
  destruct (update Sample.Stats_default Sample.unbounded 2 (Sample.add_sample 3)
              (Sample.holding_at_1_shaky (Sample.mkStats 1 2)))
    as [u w'| | |] eqn:Hupd; [|vm_compute in Hupd; discriminate..].
  exists u, w'. split; [reflexivity|]. exact Hfree.
Defined.

Lemma conversions_round_trip_witness :
  wf (Sample.holding_at_1 (Sample.mkStats 1 2)) ∧
  pick (Sample.bounded 4) (dom (blocks (Sample.holding_at_1 (Sample.mkStats 1 2))))
    = Some 2%positive ∧
  ∃ w', bind (assign (Sample.bounded 4) (Sample.mkStats 5 6)) (λ _, to_T Sample.Stats_default)
          (Sample.holding_at_1 (Sample.mkStats 1 2)) = Returns (Sample.mkStats 5 6) w' ∧
        bind (assign (Sample.bounded 4) (Sample.mkStats 5 6)) (λ _, is_not_null)
          (Sample.holding_at_1 (Sample.mkStats 1 2)) = Returns true w'.
Proof.
  assert (pick (Sample.bounded 4) (dom (blocks (Sample.holding_at_1 (Sample.mkStats 1 2))))
          = Some 2%positive) as Hpick by (vm_compute; reflexivity).
  split; [apply wf_holding_at_1|]. split; [exact Hpick|].
  destruct (conversions_round_trip Sample.Stats_default (Sample.bounded 4)
              (Sample.holding_at_1 (Sample.mkStats 1 2)) (Sample.mkStats 5 6) 2%positive
              (wf_holding_at_1 _) Hpick) as (Hto & _ & Hnot & _).
  eexists. split; [exact Hto | exact Hnot].
Defined.

Lemma update_loop_bounded_witness :
  wf (Sample.holding_at_1_shaky (Sample.mkStats 1 2)) ∧
  length (weak_fails (Sample.holding_at_1_shaky (Sample.mkStats 1 2))) < 2 ∧
  ∃ w', (∃ u, update Sample.Stats_default (Sample.bounded 2) 2 (Sample.add_sample 3)
                (Sample.holding_at_1_shaky (Sample.mkStats 1 2)) = Returns u w') ∨
        update Sample.Stats_default (Sample.bounded 2) 2 (Sample.add_sample 3)
          (Sample.holding_at_1_shaky (Sample.mkStats 1 2)) = Throws bad_alloc w'.
Proof.
  assert (length (weak_fails (Sample.holding_at_1_shaky (Sample.mkStats 1 2))) < 2)
    as Hfew by (simpl; lia).
  split; [apply wf_holding_at_1_shaky|]. split; [exact Hfew|].
  exact (proj2 (update_loop_bounded Sample.Stats_default (Sample.bounded 2) 2
                  (Sample.add_sample 3) (Sample.holding_at_1_shaky (Sample.mkStats 1 2))
                  (wf_holding_at_1_shaky _)) Hfew).
Defined.

Lemma retries_do_not_compound_witness :
  steady (Sample.add_sample 3) ∧
  ∃ w', update Sample.Stats_default Sample.unbounded 2 (Sample.add_sample 3)
          (Sample.holding_at_1_shaky (Sample.mkStats 1 2)) = Returns 5%Z w' ∧
        load Sample.Stats_default w' = Returns (Sample.mkStats 2 5) w'.
Proof.
  assert (steady (Sample.add_sample 3)) as Hsteady by (intros x e e'; reflexivity).
  split; [exact Hsteady|].
  exact (retries_do_not_compound Sample.Stats_default Sample.unbounded
           (Sample.add_sample 3) (Sample.holding_at_1_shaky (Sample.mkStats 1 2))
           1 0 [] (wf_holding_at_1_shaky _) (λ used, ex_intro _ _ eq_refl)
           eq_refl eq_refl Hsteady).
Defined.

Lemma callers_never_stuck_witness :
  ∃ fr, pool Scenes.all_making !! 0 = Some fr ∧
        exec Sample.Stats_default Sample.increment (Decide 0 false (Some 1%positive))
          Scenes.all_making = None ∧
        (left_the_call fr ∨
         (at_point fr = AtMake ∧
          ∃ a, Some 1%positive = Some a ∧ a ∈ dom (heap (shared Scenes.all_making)))).
Proof.
  assert (∃ fr, pool Scenes.all_making !! 0 = Some fr) as [fr Hfr]
    by (vm_compute; eexists; reflexivity).
  assert (exec Sample.Stats_default Sample.increment (Decide 0 false (Some 1%positive))
            Scenes.all_making = None) as Hstuck by (vm_compute; reflexivity).
  exists fr. split; [exact Hfr|]. split; [exact Hstuck|].
  apply (callers_never_stuck Sample.Stats_default Sample.increment 3 Scenes.start
           Scenes.to_making Scenes.all_making (Decide 0 false (Some 1%positive)) fr
           (at_rest_at_1 _)); [vm_compute; reflexivity | exact Hfr | exact Hstuck].
Defined.

Lemma held_snapshot_undisturbed_witness :
  ∃ fr, pool Scenes.one_loaded !! 1 = Some fr ∧
        currentObjectPtr fr = Some 1%positive ∧
        pool Scenes.zero_done !! 1 = Some fr ∧
        objectPtr (shared Scenes.zero_done) = Some 2%positive ∧
        pointee (Some 1%positive) (heap (shared Scenes.zero_done))
          = Some (Sample.mkStats 0 7).
Proof.
  assert (∃ fr, pool Scenes.one_loaded !! 1 = Some fr ∧
                currentObjectPtr fr = Some 1%positive) as (fr & Hfr & Hcur)
    by (vm_compute; eexists; split; reflexivity).
  assert (Forall (λ d, who d ≠ 1) (alone 2)) as Hothers
    by (repeat (apply Forall_cons_2; [simpl; discriminate|]); apply Forall_nil_2).
  destruct (held_snapshot_undisturbed Sample.Stats_default Sample.increment 3 Scenes.start
              Scenes.one_loads (alone 2) Scenes.one_loaded Scenes.zero_done 1 fr 1%positive
              (at_rest_at_1 _)) as (Hsame & _ & Hvalue);
    [vm_compute; reflexivity | vm_compute; reflexivity | exact Hothers | exact Hfr
    | left; exact Hcur |].
  exists fr. split; [exact Hfr|]. split; [exact Hcur|]. split; [exact Hsame|].
  split; [vm_compute; reflexivity|].
  rewrite Hvalue. vm_compute. reflexivity.
Defined.

Lemma all_left_nothing_leaks_witness :
  Forall left_the_call (pool Scenes.after_a_throw) ∧
  at_rest (shared Scenes.after_a_throw) ∧
  heap (shared Scenes.after_a_throw) = {[3%positive := Block (Sample.mkStats 2 7) 1]}.
Proof.
  assert (Forall left_the_call (pool Scenes.after_a_throw)) as Hleft
    by (repeat (apply Forall_cons_2;
                [(left; reflexivity) || (right; reflexivity)|]); apply Forall_nil_2).
  split; [exact Hleft|].
  destruct (all_left_nothing_leaks Sample.Stats_default Sample.increment 3 Scenes.start
              Scenes.with_a_throw Scenes.after_a_throw (at_rest_at_1 _))
    as [Hrest Hheap]; [vm_compute; reflexivity | exact Hleft |].
  split; [exact Hrest|]. exact Hheap.
Defined.

Lemma returned_callers_count_witness :
  Forall left_the_call (pool Scenes.after_a_throw) ∧
  returned (pool Scenes.after_a_throw) = 2 ∧
  Sample.count (visible Sample.Stats_default (shared Scenes.after_a_throw)) = 2%Z.
Proof.
  assert (Forall left_the_call (pool Scenes.after_a_throw)) as Hleft
    by (repeat (apply Forall_cons_2;
                [(left; reflexivity) || (right; reflexivity)|]); apply Forall_nil_2).
  split; [exact Hleft|]. split; [vm_compute; reflexivity|].
  destruct (returned_callers_count Sample.Stats_default Sample.increment Sample.count
              3 Scenes.start Scenes.with_a_throw Scenes.after_a_throw
              (λ x, eq_refl) (at_rest_at_1 _)) as (_ & Hcount & _);
    [vm_compute; reflexivity | exact Hleft |].
  rewrite Hcount. vm_compute. reflexivity.
Defined.

Lemma alone_caller_retries_once_witness :
  ∃ fr, pool Scenes.zero_done !! 1 = Some fr ∧ at_point fr = AtCall ∧
        currentObjectPtr fr = Some 1%positive ∧
        objectPtr (shared Scenes.zero_done) = Some 2%positive ∧
        length (solo Sample.Stats_default Sample.increment 1
                  (steps_left (shared Scenes.zero_done) fr) Scenes.zero_done) ≤ 7 ∧
        ∃ c' fr',
          run Sample.Stats_default Sample.increment
            (solo Sample.Stats_default Sample.increment 1
               (steps_left (shared Scenes.zero_done) fr) Scenes.zero_done)
            Scenes.zero_done = Some c' ∧
          pool c' !! 1 = Some fr' ∧ at_point fr' = Returned.
Proof.
  assert (∃ fr, pool Scenes.zero_done !! 1 = Some fr ∧ at_point fr = AtCall ∧
                currentObjectPtr fr = Some 1%positive)
    as (fr & Hfr & Hat & Hcur) by (vm_compute; eexists; repeat split; reflexivity).
  assert (at_point fr ≠ Threw) as Hin by (rewrite Hat; discriminate).
  destruct (alone_caller_retries_once Sample.Stats_default Sample.increment 3 Scenes.start
              (Scenes.one_loads ++ alone 2) Scenes.zero_done 1 fr (at_rest_at_1 _))
    as (Hlen & _ & _ & c' & fr' & Hrun & Hfr' & Hat' & _);
    [vm_compute; reflexivity | exact Hfr | exact Hin |].
  exists fr. split; [exact Hfr|]. split; [exact Hat|]. split; [exact Hcur|].
  split; [vm_compute; reflexivity|]. split; [exact Hlen|].
  exists c', fr'. split; [exact Hrun|]. split; [exact Hfr' | exact Hat'].
Defined.

Lemma crowd_never_stuck_witness :
  ∃ j, jobs Scenes.gathered !! 0 = Some j ∧
       crowd_exec Sample.Stats_default (Scenes.move 0 (Some 1%positive)) Scenes.gathered
         = None ∧
       (over j ∨ ∃ a, Some 1%positive = Some a ∧ a ∈ dom (heap (crowd_mem Scenes.gathered))).
Proof.
  assert (∃ j, jobs Scenes.gathered !! 0 = Some j) as [j Hj]
    by (vm_compute; eexists; reflexivity).
  assert (crowd_exec Sample.Stats_default (Scenes.move 0 (Some 1%positive)) Scenes.gathered
          = None) as Hstuck by (vm_compute; reflexivity).
  exists j. split; [exact Hj|]. split; [exact Hstuck|].
  apply (crowd_never_stuck Sample.Stats_default Scenes.four Scenes.start [] Scenes.gathered
           (Scenes.move 0 (Some 1%positive)) j (at_rest_at_1 _));
    [reflexivity | exact Hj | exact Hstuck].
Defined.

Lemma load_returns_what_was_put_witness :
  ∃ j, jobs Scenes.everyone_done !! 1 = Some j ∧ doing j = Load ∧ stage_of j = Left ∧
       job_object j = Sample.mkStats 5 6 ∧
       produced Sample.Stats_default (Sample.mkStats 0 7) Scenes.four (job_object j).
Proof.
  assert (∃ j, jobs Scenes.everyone_done !! 1 = Some j ∧ doing j = Load ∧
               stage_of j = Left ∧ job_object j = Sample.mkStats 5 6)
    as (j & Hj & Hdoing & Hstage & Hobject)
    by (vm_compute; eexists; repeat split; reflexivity).
  exists j. repeat (split; [assumption|]).
  apply (load_returns_what_was_put Sample.Stats_default Scenes.four Scenes.start
           Scenes.everyone Scenes.everyone_done 1 j (at_rest_at_1 _));
    [vm_compute; reflexivity | exact Hj | exact Hdoing | exact Hstage].
Defined.

Lemma crowd_over_nothing_leaks_witness :
  Forall over (jobs Scenes.everyone_done) ∧
  at_rest (crowd_mem Scenes.everyone_done) ∧
  heap (crowd_mem Scenes.everyone_done) = ∅.
Proof.
  assert (Forall over (jobs Scenes.everyone_done)) as Hover
    by (repeat (apply Forall_cons_2;
                [(left; reflexivity) || (right; reflexivity)|]); apply Forall_nil_2).
  split; [exact Hover|].
  destruct (crowd_over_nothing_leaks Sample.Stats_default Scenes.four Scenes.start
              Scenes.everyone Scenes.everyone_done (at_rest_at_1 _))
    as [Hrest Hheap]; [vm_compute; reflexivity | exact Hover |].
  split; [exact Hrest|]. exact Hheap.
Defined.

Lemma load_is_atomic_witness :
  visible Sample.Stats_default (crowd_mem Scenes.writers_done) = Sample.Stats_default ∧
  ∃ j3, jobs Scenes.reader_copied !! 1 = Some j3 ∧ stage_of j3 = Leaving ∧
        job_object j3 = Sample.mkStats 0 7.
Proof.
  split; [vm_compute; reflexivity|].
  assert (∃ j, jobs Scenes.gathered !! 1 = Some j ∧ doing j = Load ∧ stage_of j = Entering)
    as (j & Hj & Hdoing & Hstage) by (vm_compute; eexists; repeat split; reflexivity).
  assert (Forall (λ o, who o ≠ 1) Scenes.meanwhile_writers) as Hothers
    by (repeat (apply Forall_cons_2; [simpl; discriminate|]); apply Forall_nil_2).
  destruct (load_is_atomic Sample.Stats_default Scenes.four Scenes.start []
              Scenes.gathered (Scenes.move 1 None) Scenes.reader_loaded
              Scenes.meanwhile_writers Scenes.writers_done (Scenes.move 1 None)
              Scenes.reader_copied j (at_rest_at_1 _))
    as (j3 & Hj3 & Hstage3 & Hobject);
    [reflexivity | exact Hj | exact Hdoing | exact Hstage | vm_compute; reflexivity
    | exact Hothers | vm_compute; reflexivity | reflexivity | vm_compute; reflexivity |].
  exists j3. split; [exact Hj3|]. split; [exact Hstage3|].
  rewrite Hobject. vm_compute. reflexivity.
Defined.

Lemma store_is_atomic_witness :
  visible Sample.Stats_default (crowd_mem Scenes.others_done) = Sample.mkStats 1 0 ∧
  visible Sample.Stats_default (crowd_mem Scenes.writer_stored) = Sample.mkStats 5 6 ∧
  ∃ j3, jobs Scenes.writer_stored !! 0 = Some j3 ∧ stage_of j3 = Left.
Proof.
  split; [vm_compute; reflexivity|].
  assert (∃ j, jobs Scenes.gathered !! 0 = Some j ∧ doing j = Store (Sample.mkStats 5 6) ∧
               stage_of j = Entering)
    as (j & Hj & Hdoing & Hstage) by (vm_compute; eexists; repeat split; reflexivity).
  assert (Forall (λ o, who o ≠ 0) Scenes.meanwhile_others) as Hothers
    by (repeat (apply Forall_cons_2; [simpl; discriminate|]); apply Forall_nil_2).
  exact (store_is_atomic Sample.Stats_default Scenes.four Scenes.start []
           Scenes.gathered (Scenes.move 0 (Some 2%positive)) Scenes.writer_made
           Scenes.meanwhile_others Scenes.others_done (Scenes.move 0 None)
           Scenes.writer_stored j (Sample.mkStats 5 6) 2%positive (at_rest_at_1 _)
           eq_refl Hj Hdoing Hstage eq_refl eq_refl Hothers eq_refl eq_refl eq_refl).
Defined.
